(** * Orderbook core: numeric model, L2 book engine, SPSC ring, ingest, stats

    A shallow embedding of the C++ sources
    (types.h, orderbook.h, spsc_queue.h, parser.h, strategy.h)
    and the properties established about them.

    Conventions.
    - [uint64_t] values are integers in [Z]; every arithmetic operation of the
      source that can wrap is written with [u64] (reduction modulo 2^64).
    - [double] is Rocq's primitive binary64 float; copying a double is
      Leibniz equality on [float]. Each arithmetic operation is one IEEE-754
      binary64 operation rounded to nearest, ties to even (as on x86-64 and
      aarch64, the targets of the sources). The one expression of these
      sources a compiler may contract, [p * 100.0 + 0.5] of [from_f64], has
      both evaluations: product and sum rounded separately, or one fused
      multiply-add [fma] rounded once; the boolean [contract] says which.
    - [std::map<uint64_t,double>] is a finite map [gmap Z float]; [begin()]
      and [rbegin()] are the entries with the least and the greatest key.
    - A conversion double -> uint64_t whose truncated value is not
      representable is undefined behaviour in C++; such results are [None]. *)

From Stdlib Require Import ZArith Lia List Ascii String QArith Qround.
From Stdlib Require Import Floats.PrimFloat Floats.FloatOps Floats.SpecFloat.
From stdpp Require Import gmap list sorting.

Set Warnings "-inexact-float".
Local Open Scope Z_scope.

(** * Part I: the embedding *)

(** ** Machine integers *)

Definition u64 (z : Z) : Z := z mod 2 ^ 64.

(** ** types.h *)

(** [static_cast<uint64_t>(double)]: truncation toward zero; [None] when the
    truncated value does not fit (NaN, infinities, values <= -1 or >= 2^64). *)
Definition trunc_mag (m : positive) (e : Z) : Z :=
  if 0 <=? e then Z.pos m * 2 ^ e else Z.pos m / 2 ^ (- e).

Definition f64_to_u64 (x : float) : option Z :=
  match Prim2SF x with
  | S754_zero _ => Some 0
  | S754_finite s m e =>
      let t := trunc_mag m e in
      if s then (if t =? 0 then Some 0 else None)
      else if t <? 2 ^ 64 then Some t else None
  | S754_infinity _ => None
  | S754_nan => None
  end.

(** [static_cast<double>(uint64_t)]: the nearest binary64 value, ties to even. *)
Definition u64_to_f64 (r : Z) : float :=
  SF2Prim (binary_normalize prec emax r 0 false).

(** The exact product of two doubles: not a number, an infinity, a signed
    zero, or the number [(-1)^s * m * 2^e]. *)
Inductive Product :=
| PNan
| PInf (s : bool)
| PZero (s : bool)
| PFin (s : bool) (m : positive) (e : Z).

Definition exact_product (x y : spec_float) : Product :=
  match x, y with
  | S754_nan, _ | _, S754_nan => PNan
  | S754_infinity _, S754_zero _ | S754_zero _, S754_infinity _ => PNan
  | S754_infinity sx, S754_infinity sy
  | S754_infinity sx, S754_finite sy _ _
  | S754_finite sx _ _, S754_infinity sy => PInf (xorb sx sy)
  | S754_zero sx, S754_zero sy
  | S754_zero sx, S754_finite sy _ _
  | S754_finite sx _ _, S754_zero sy => PZero (xorb sx sy)
  | S754_finite sx mx ex, S754_finite sy my ey =>
      PFin (xorb sx sy) (mx * my) (ex + ey)
  end.

Definition signed (s : bool) (m : positive) : Z :=
  if s then Z.neg m else Z.pos m.

(** The fused multiply-add on binary64 (the instruction a contracted
    [x * y + z] compiles to): the exact [x * y + z], rounded once to nearest,
    ties to even. *)
Definition SFfma (x y z : spec_float) : spec_float :=
  match exact_product x y, z with
  | PNan, _ | _, S754_nan => S754_nan
  | PInf s, S754_infinity sz => if Bool.eqb s sz then z else S754_nan
  | PInf s, _ => S754_infinity s
  | PZero s, S754_zero sz => S754_zero (s && sz)
  | PZero _, _ => z
  | PFin _ _ _, S754_infinity _ => z
  | PFin s m e, S754_zero _ => binary_normalize prec emax (signed s m) e false
  | PFin s m e, S754_finite sz mz ez =>
      let e' := Z.min e ez in
      binary_normalize prec emax
        (signed s m * 2 ^ (e - e') + signed sz mz * 2 ^ (ez - e')) e' false
  end.

Definition fma (x y z : float) : float :=
  SF2Prim (SFfma (Prim2SF x) (Prim2SF y) (Prim2SF z)).

Record Price := mkPrice { raw : Z }.

(** The double [p * 100.0 + 0.5] of [from_f64]. C++ lets the compiler
    contract the expression: [contract] is [true] when the build evaluates it
    as one fused multiply-add, [false] when it rounds the product and then
    the sum. *)
Definition scaled (contract : bool) (p : float) : float :=
  if contract then fma p 100 0.5 else (p * 100 + 0.5)%float.

Definition from_f64 (contract : bool) (p : float) : option Price :=
  mkPrice <$> f64_to_u64 (scaled contract p).

Definition to_f64 (p : Price) : float := (u64_to_f64 (raw p) / 100)%float.

Definition price_eq (a b : Price) : bool := raw a =? raw b.
Definition price_le (a b : Price) : bool := raw a <=? raw b.
Definition price_ge (a b : Price) : bool := raw a >=? raw b.

Record Qty := mkQty { value : float }.

Definition is_zero (q : Qty) : bool := (value q <=? 1e-15)%float.

Record Level := mkLevel { price : Price; qty : Qty }.

Inductive Side := Bid | Ask.

Inductive UpdateType := Snapshot | Incremental.

Record Update := mkUpdate {
  type : UpdateType;
  timestamp : Z;
  side : Side;          (* only for incremental *)
  level : Level;        (* only for incremental *)
  bids : list Level;    (* only for snapshot *)
  asks : list Level     (* only for snapshot *)
}.

Record BookNotification := mkNotification {
  update_timestamp : Z;
  engine_send_ns : Z;
  best_bid : option Level;
  best_ask : option Level;
  seq : Z
}.

(** ** orderbook.h *)

(** The extremal entries of an ordered map. *)
Definition pick_greater (k : Z) (v : float) (acc : option (Z * float))
  : option (Z * float) :=
  match acc with
  | Some (k', _) => if k' <? k then Some (k, v) else acc
  | None => Some (k, v)
  end.

Definition pick_smaller (k : Z) (v : float) (acc : option (Z * float))
  : option (Z * float) :=
  match acc with
  | Some (k', _) => if k <? k' then Some (k, v) else acc
  | None => Some (k, v)
  end.

(** [m.rbegin()]: [None] exactly when [m.empty()]. *)
Definition map_rbegin (m : gmap Z float) : option (Z * float) :=
  map_fold pick_greater None m.

(** [m.begin()]: [None] exactly when [m.empty()]. *)
Definition map_begin (m : gmap Z float) : option (Z * float) :=
  map_fold pick_smaller None m.

Definition level_of_entry (e : Z * float) : Level :=
  mkLevel (mkPrice (fst e)) (mkQty (snd e)).

Record Orderbook := mkBook {
  bids_ : gmap Z float;
  asks_ : gmap Z float;
  cached_best_bid_ : option Level;
  cached_best_ask_ : option Level;
  seq_ : Z
}.

Definition book_new : Orderbook := mkBook ∅ ∅ None None 0.

Definition refresh_best_bid (b : Orderbook) : Orderbook :=
  mkBook (bids_ b) (asks_ b)
         (level_of_entry <$> map_rbegin (bids_ b))
         (cached_best_ask_ b) (seq_ b).

Definition refresh_best_ask (b : Orderbook) : Orderbook :=
  mkBook (bids_ b) (asks_ b)
         (cached_best_bid_ b)
         (level_of_entry <$> map_begin (asks_ b)) (seq_ b).

(** One pass of [for (const auto& l : levels) if (!l.qty.is_zero()) m[l.price.raw] = l.qty.value;] *)
Definition load_level (m : gmap Z float) (l : Level) : gmap Z float :=
  if is_zero (qty l) then m else <[raw (price l) := value (qty l)]> m.

Definition load_levels (ls : list Level) (m : gmap Z float) : gmap Z float :=
  fold_left load_level ls m.

Definition apply_snapshot (bs as_ : list Level) (b : Orderbook) : Orderbook :=
  refresh_best_ask
    (refresh_best_bid
       (mkBook (load_levels bs ∅) (load_levels as_ ∅)
               (cached_best_bid_ b) (cached_best_ask_ b) (seq_ b))).

(** [cache && cache->price == p] *)
Definition cache_at (c : option Level) (p : Price) : bool :=
  match c with
  | Some l => price_eq (price l) p
  | None => false
  end.

Definition apply_incremental (s : Side) (l : Level) (b : Orderbook) : Orderbook :=
  match s with
  | Bid =>
      if is_zero (qty l) then
        let b1 := mkBook (delete (raw (price l)) (bids_ b)) (asks_ b)
                         (cached_best_bid_ b) (cached_best_ask_ b) (seq_ b) in
        if cache_at (cached_best_bid_ b1) (price l) then refresh_best_bid b1 else b1
      else
        let m := <[raw (price l) := value (qty l)]> (bids_ b) in
        let c := match cached_best_bid_ b with
                 | None => Some l
                 | Some c0 => if price_ge (price l) (price c0) then Some l else Some c0
                 end in
        mkBook m (asks_ b) c (cached_best_ask_ b) (seq_ b)
  | Ask =>
      if is_zero (qty l) then
        let b1 := mkBook (bids_ b) (delete (raw (price l)) (asks_ b))
                         (cached_best_bid_ b) (cached_best_ask_ b) (seq_ b) in
        if cache_at (cached_best_ask_ b1) (price l) then refresh_best_ask b1 else b1
      else
        let m := <[raw (price l) := value (qty l)]> (asks_ b) in
        let c := match cached_best_ask_ b with
                 | None => Some l
                 | Some c0 => if price_le (price l) (price c0) then Some l else Some c0
                 end in
        mkBook (bids_ b) m (cached_best_bid_ b) c (seq_ b)
  end.

(** [Orderbook::apply]: the mutated book and the notification returned. *)
Definition apply (u : Update) (send_ns : Z) (b : Orderbook)
  : Orderbook * BookNotification :=
  let b1 := match type u with
            | Snapshot => apply_snapshot (bids u) (asks u) b
            | Incremental => apply_incremental (side u) (level u) b
            end in
  let b2 := mkBook (bids_ b1) (asks_ b1) (cached_best_bid_ b1)
                   (cached_best_ask_ b1) (u64 (seq_ b1 + 1)) in
  (b2, mkNotification (timestamp u) send_ns
                      (cached_best_bid_ b2) (cached_best_ask_ b2) (seq_ b2)).

(** The driver loop of main.cpp: each update is applied with the clock value
    sampled just before it; the notifications are collected in order. *)
Fixpoint run (b : Orderbook) (inputs : list (Update * Z))
  : Orderbook * list BookNotification :=
  match inputs with
  | [] => (b, [])
  | (u, ns) :: rest =>
      let '(b1, n) := apply u ns b in
      let '(b2, ns') := run b1 rest in
      (b2, n :: ns')
  end.

(** ** strategy.h: latency statistics *)

Record StrategyStats := mkStats {
  count : Z;
  total_latency_ns : Z;
  min_latency_ns : Z;
  max_latency_ns : Z;
  latencies : list Z
}.

Definition UINT64_MAX : Z := 2 ^ 64 - 1.

Definition stats_new : StrategyStats := mkStats 0 0 UINT64_MAX 0 [].

Definition record (lat : Z) (s : StrategyStats) : StrategyStats :=
  mkStats (u64 (count s + 1))
          (u64 (total_latency_ns s + lat))
          (if lat <? min_latency_ns s then lat else min_latency_ns s)
          (if lat >? max_latency_ns s then lat else max_latency_ns s)
          (latencies s ++ [lat]).

Definition avg_ns (s : StrategyStats) : Z :=
  if count s >? 0 then total_latency_ns s / count s else 0.

(** [percentile]: [None] stands for the undefined conversion of a negative,
    huge or NaN index to [size_t]. *)
Definition percentile (p : float) (s : StrategyStats) : option Z :=
  match latencies s with
  | [] => Some 0
  | _ :: _ =>
      let sorted := merge_sort Z.le (latencies s) in
      let n := Z.of_nat (length sorted) in
      idx ← f64_to_u64 ((p / 100) * u64_to_f64 (n - 1))%float;
      sorted !! Z.to_nat (Z.min idx (n - 1))
  end.

Definition median (s : StrategyStats) : option Z := percentile 50 s.

(** ** spsc_queue.h: the single-threaded behaviour of the ring

    The atomics are read and written by one thread at a time here; the
    memory orders play no role. [storage] is [Some x] while an object lives
    in the slot (between placement-new and the destructor call). *)

Section SPSC.
Variable T : Type.
Variable Capacity : Z.

Definition MASK : Z := Capacity - 1.

Record Slot := mkSlot { slot_seq : Z; storage : option T }.

Record SPSCQueue := mkQueue {
  head_ : Z;
  tail_ : Z;
  slots_ : list Slot
}.

(** The constructor: [slots_[i].seq = i] for [i < Capacity]. *)
Definition queue_new : SPSCQueue :=
  mkQueue 0 0 ((fun i => mkSlot i None) <$> seqZ 0 Capacity).

Definition slot_index (pos : Z) : nat := Z.to_nat (Z.land pos MASK).

(** [try_push]. The masked index always lies inside [slots_]; the first
    branch only makes the function total on ill-formed states. *)
Definition try_push (item : T) (q : SPSCQueue) : bool * SPSCQueue :=
  let pos := head_ q in
  match slots_ q !! slot_index pos with
  | None => (false, q)
  | Some slot =>
      if negb (slot_seq slot =? pos) then (false, q) (* full *)
      else (true,
            mkQueue (u64 (pos + 1)) (tail_ q)
                    (<[slot_index pos := mkSlot (u64 (pos + 1)) (Some item)]>
                       (slots_ q)))
  end.

(** [try_pop]. Reading a slot without a live object is undefined in the
    source; it does not happen on rings built by [queue_new], [try_push]
    and [try_pop] (see [ring_rep]). *)
Definition try_pop (q : SPSCQueue) : option T * SPSCQueue :=
  let pos := tail_ q in
  match slots_ q !! slot_index pos with
  | None => (None, q)
  | Some slot =>
      if negb (slot_seq slot =? u64 (pos + 1)) then (None, q) (* empty *)
      else match storage slot with
           | None => (None, q)
           | Some item =>
               (Some item,
                mkQueue (head_ q) (u64 (pos + 1))
                        (<[slot_index pos := mkSlot (u64 (pos + Capacity)) None]>
                           (slots_ q)))
           end
  end.

(** Consecutive calls, with the result of each. *)
Fixpoint push_all (items : list T) (q : SPSCQueue) : list bool * SPSCQueue :=
  match items with
  | [] => ([], q)
  | x :: rest =>
      let r := try_push x q in
      let rs := push_all rest (snd r) in
      (fst r :: fst rs, snd rs)
  end.

Fixpoint pop_n (n : nat) (q : SPSCQueue) : list (option T) * SPSCQueue :=
  match n with
  | O => ([], q)
  | S n' =>
      let r := try_pop q in
      let rs := pop_n n' (snd r) in
      (fst r :: fst rs, snd rs)
  end.

(** *** The ring as a bounded FIFO

    [ring_rep q t xs]: [q] holds the elements [xs], oldest first, the
    oldest having been pushed at position [t] (positions count all pushes
    since construction, without wrap-around). *)
Definition pos_index (t : Z) (i : nat) : nat :=
  Z.to_nat ((t + Z.of_nat i) mod Capacity).

Record ring_rep (q : SPSCQueue) (t : Z) (xs : list T) : Prop := {
  rep_tail_nonneg : 0 <= t;
  rep_bounded : Z.of_nat (length xs) <= Capacity;
  rep_tail : tail_ q = u64 t;
  rep_head : head_ q = u64 (t + Z.of_nat (length xs));
  rep_length : length (slots_ q) = Z.to_nat Capacity;
  rep_filled : forall i x, xs !! i = Some x ->
      slots_ q !! pos_index t i
      = Some (mkSlot (u64 (t + Z.of_nat i + 1)) (Some x));
  rep_free : forall i, (length xs <= i)%nat -> Z.of_nat i < Capacity ->
      slots_ q !! pos_index t i = Some (mkSlot (u64 (t + Z.of_nat i)) None)
}.

(** The rings that a program can hold: built by the constructor and
    changed by [try_push] and [try_pop] only. *)
Inductive reachable : SPSCQueue -> Prop :=
| reach_new : reachable queue_new
| reach_push x q : reachable q -> reachable (snd (try_push x q))
| reach_pop q : reachable q -> reachable (snd (try_pop q)).

End SPSC.

Arguments mkSlot {T} _ _.
Arguments slot_seq {T} _.
Arguments storage {T} _.
Arguments mkQueue {T} _ _ _.
Arguments head_ {T} _.
Arguments tail_ {T} _.
Arguments slots_ {T} _.
Arguments queue_new {T} Capacity.
Arguments try_push {T} Capacity item q.
Arguments try_pop {T} Capacity q.
Arguments push_all {T} Capacity items q.
Arguments pop_n {T} Capacity n q.
Arguments ring_rep {T} Capacity q t xs.
Arguments reachable {T} Capacity _.

(** ** parser.h: the ingest adapter

    The mapped file is a list of bytes. [None] marks an execution the C++
    standard leaves undefined (an unrepresentable price conversion, a read
    past the mapping). *)

Definition LF : ascii := ascii_of_N 10.
Definition CR : ascii := ascii_of_N 13.
Definition TAB : ascii := ascii_of_N 9.
Definition DQUOTE : ascii := ascii_of_N 34.

(** The value of a [char] in an arithmetic expression ([char] is signed on
    x86-64; for 7-bit bytes the signedness is immaterial). *)
Definition char_value (c : ascii) : Z :=
  let n := Z.of_N (N_of_ascii c) in if n <? 128 then n else n - 256.

(** [while (p < end && !stop(p[0])) ++p;] : the text skipped, and what is left. *)
Fixpoint take_to (stop : ascii -> bool) (s : list ascii) : list ascii :=
  match s with
  | [] => []
  | c :: r => if stop c then [] else c :: take_to stop r
  end.

Fixpoint skip_to (stop : ascii -> bool) (s : list ascii) : list ascii :=
  match s with
  | [] => []
  | c :: r => if stop c then s else skip_to stop r
  end.

Definition parse_u64 (text : list ascii) : Z :=
  fold_left (fun result c => u64 (result * 10 + (char_value c - char_value "0"))) text 0.

Definition strip_quotes (sv : list ascii) : list ascii :=
  match sv with
  | c :: rest =>
      match last rest with
      | Some d =>
          if Ascii.eqb c DQUOTE && Ascii.eqb d DQUOTE
          then take (length rest - 1) rest
          else sv
      | None => sv
      end
  | [] => sv
  end.

(** The fields of a snapshot line: split at commas outside double quotes. *)
Fixpoint snapshot_fields (rest : list ascii) (in_quotes : bool)
    (fs : list ascii) (fields : list (list ascii)) : list (list ascii) :=
  match rest with
  | [] => fields ++ [fs]
  | c :: rest' =>
      let in_quotes' := if Ascii.eqb c DQUOTE then negb in_quotes else in_quotes in
      if Ascii.eqb c "," && negb in_quotes'
      then snapshot_fields rest' in_quotes' [] (fields ++ [fs])
      else snapshot_fields rest' in_quotes' (fs ++ [c]) fields
  end.

Inductive json_step :=
| JDone
| JOuter (rest : list ascii)
| JPair (price_text size_text : list ascii) (rest : list ascii).

Definition is_blank (c : ascii) : bool := Ascii.eqb c " " || Ascii.eqb c TAB.

(** One turn of the [while (p < end)] loop of [parse_levels_json]. *)
Definition levels_step (s : list ascii) : json_step :=
  match skip_to (Ascii.eqb "[") s with
  | [] => JDone
  | _ :: s1 =>
      match s1 with
      | [] => JDone
      | c :: _ =>
          if Ascii.eqb c "[" then JOuter s1
          else
            let s2 := skip_to (fun c => negb (is_blank c)) s1 in
            let stop1 := fun c => Ascii.eqb c "," || Ascii.eqb c "]" in
            let num1 := take_to stop1 s2 in
            let s3 := skip_to stop1 s2 in
            let s4 := match s3 with
                      | c :: r => if Ascii.eqb c "," then r else s3
                      | [] => []
                      end in
            let s5 := skip_to (fun c => negb (is_blank c)) s4 in
            let num2 := take_to (Ascii.eqb "]") s5 in
            let s6 := skip_to (Ascii.eqb "]") s5 in
            JPair num1 num2 (tail s6)
      end
  end.

Fixpoint commas (s : list ascii) : nat :=
  match s with
  | [] => 0
  | c :: r => if Ascii.eqb c "," then S (commas r) else commas r
  end.

(** [INT_MAX]: [int] is 32 bits wide (x86-64 and aarch64). *)
Definition INT_MAX : Z := 2147483647.

Section Parser.
(** Whether the build contracts [p * 100.0 + 0.5] into a fused multiply-add
    (see [scaled]): the compiler's default on aarch64, and on x86-64 when
    FMA instructions are enabled. *)
Variable fp_contract : bool.
(** [strtod] of the C library, on the bytes copied into the buffer. *)
Variable strtod : list ascii -> float.
(** The indeterminate values of the scalar members of [Update u;]. *)
Variable indet_timestamp : Z.
Variable indet_side : Side.

Definition parse_double (text : list ascii) : float := strtod (take 63 text).

Fixpoint levels_loop (fuel : nat) (s : list ascii) (levels : list Level)
  : option (list Level) :=
  match fuel with
  | O => Some levels
  | S fuel' =>
      match levels_step s with
      | JDone => Some levels
      | JOuter rest => levels_loop fuel' rest levels
      | JPair ptext stext rest =>
          p ← from_f64 fp_contract (parse_double ptext);
          levels_loop fuel' rest (levels ++ [mkLevel p (mkQty (parse_double stext))])
      end
  end.

(** Every turn consumes at least one byte: [S (length sv)] turns suffice
    (see [levels_loop_fuel]). *)
Definition parse_levels_json (sv : list ascii) : option (list Level) :=
  levels_loop (S (length sv)) sv [].

Definition parse_snapshot (line : list ascii) (out : list Update)
  : option (list Update) :=
  let fields := snapshot_fields line false [] [] in
  if (length fields <? 7)%nat then Some out
  else
    let ts := parse_u64 (fields !!! 3%nat) in
    bs ← parse_levels_json (strip_quotes (fields !!! 5%nat));
    as_ ← parse_levels_json (strip_quotes (fields !!! 6%nat));
    Some (out ++ [mkUpdate Snapshot ts indet_side
                           (mkLevel (mkPrice 0) (mkQty 0)) bs as_]).

(** The [switch (field)] of [parse_incremental]. [delim] is the byte at
    the end of the field (the byte [p] points to): a comma, or the byte after the line;
    [None] when the line ends where the mapping ends. It is read only
    when field 4 is empty. *)
Definition set_field (field : Z) (text : list ascii) (delim : option ascii)
    (u : Update) : option Update :=
  match field with
  | 3 => Some (mkUpdate (type u) (parse_u64 text) (side u) (level u)
                        (bids u) (asks u))
  | 4 =>
      c ← match text with c :: _ => Some c | [] => delim end;
      Some (mkUpdate (type u) (timestamp u)
                     (if Ascii.eqb c "b" then Bid else Ask) (level u)
                     (bids u) (asks u))
  | 7 =>
      p ← from_f64 fp_contract (parse_double text);
      Some (mkUpdate (type u) (timestamp u) (side u)
                     (mkLevel p (qty (level u))) (bids u) (asks u))
  | 8 =>
      Some (mkUpdate (type u) (timestamp u) (side u)
                     (mkLevel (price (level u)) (mkQty (parse_double text)))
                     (bids u) (asks u))
  | _ => Some u
  end.

(** [++field] on the [int field]: signed overflow is undefined. *)
Definition next_field (field : Z) : option Z :=
  if field <? INT_MAX then Some (field + 1) else None.

(** The [for] loop of [parse_incremental]. At every comma, and once more at
    the end of the line, the [switch] runs and then [++field]. *)
Fixpoint incremental_fields (rest : list ascii) (after : option ascii)
    (field : Z) (fs : list ascii) (u : Update) : option Update :=
  match rest with
  | [] => u' ← set_field field fs after u;
          _ ← next_field field;
          Some u'
  | c :: rest' =>
      if Ascii.eqb c ","
      then u' ← set_field field fs (Some c) u;
           field' ← next_field field;
           incremental_fields rest' after field' [] u'
      else incremental_fields rest' after field (fs ++ [c]) u
  end.

Definition parse_incremental (line : list ascii) (after : option ascii)
    (out : list Update) : option (list Update) :=
  u ← incremental_fields line after 0 []
        (mkUpdate Incremental indet_timestamp indet_side
                  (mkLevel (mkPrice 0) (mkQty 0)) [] []);
  Some (out ++ [u]).

Definition parse_line (line : list ascii) (after : option ascii)
    (out : list Update) : option (list Update) :=
  match line with
  | [] => Some out
  | c :: _ =>
      if Ascii.eqb c "s" then parse_snapshot line out
      else if Ascii.eqb c "i" then parse_incremental line after out
      else Some out
  end.

(** One turn of the line loop of [parse_file]: [cur] is the text up to the
    newline (or to the end of the mapping when [newline] is false). *)
Definition process_line (cur : list ascii) (newline : bool)
    (out : list Update) : option (list Update) :=
  let '(content, after) :=
    match last cur with
    | Some c => if Ascii.eqb c CR
                then (take (length cur - 1) cur, Some CR)
                else (cur, if newline then Some LF else None)
    | None => (cur, if newline then Some LF else None)
    end in
  match content with
  | [] => Some out
  | _ :: _ => parse_line content after out
  end.

Fixpoint line_loop (data : list ascii) (cur : list ascii) (out : list Update)
  : option (list Update) :=
  match data with
  | [] => match cur with
          | [] => Some out
          | _ :: _ => process_line cur false out
          end
  | c :: rest =>
      if Ascii.eqb c LF
      then out' ← process_line cur true out; line_loop rest [] out'
      else line_loop rest (cur ++ [c]) out
  end.

(** [skip_line]: past the first newline. *)
Definition skip_line (data : list ascii) : list ascii :=
  tail (skip_to (Ascii.eqb LF) data).

(** [parse_file] on the contents of a file that was opened and mapped. *)
Definition parse_file (data : list ascii) : option (list Update) :=
  line_loop (skip_line data) [] [].

End Parser.

(** ** Notions used in the statements *)

Definition greatest_entry (m : gmap Z float) (o : option (Z * float)) : Prop :=
  match o with
  | None => m = ∅
  | Some (k, v) => m !! k = Some v /\ forall j, is_Some (m !! j) -> j <= k
  end.

Definition least_entry (m : gmap Z float) (o : option (Z * float)) : Prop :=
  match o with
  | None => m = ∅
  | Some (k, v) => m !! k = Some v /\ forall j, is_Some (m !! j) -> k <= j
  end.

Definition entry_of_level (l : Level) : Z * float := (raw (price l), value (qty l)).

(** The cached best bid is the entry of [bids_] with the greatest key (or
    absent when the map is empty); the cached best ask is the entry of
    [asks_] with the least key. *)
Definition bid_cache_ok (b : Orderbook) : Prop :=
  greatest_entry (bids_ b) (entry_of_level <$> cached_best_bid_ b).

Definition ask_cache_ok (b : Orderbook) : Prop :=
  least_entry (asks_ b) (entry_of_level <$> cached_best_ask_ b).

Definition cache_consistent (b : Orderbook) : Prop :=
  bid_cache_ok b /\ ask_cache_ok b.

Definition side_map (s : Side) (b : Orderbook) : gmap Z float :=
  match s with Bid => bids_ b | Ask => asks_ b end.

(** The rational number a finite double denotes. *)
Definition exact_value (x : float) : option Q :=
  match Prim2SF x with
  | S754_zero _ => Some 0%Q
  | S754_finite s m e =>
      let mag := if 0 <=? e then inject_Z (Z.pos m * 2 ^ e)
                 else (Z.pos m # Z.to_pos (2 ^ (- e)))%Q in
      Some (if s then Qopp mag else mag)
  | S754_infinity _ => None
  | S754_nan => None
  end.

(** Round-half-up of [p * 100] in exact arithmetic, as the specification
    words it: [floor(p * 100 + 0.5)] on the number [p] denotes. *)
Definition round_half_up_cents (p : float) : option Z :=
  (fun q => Qfloor (q * 100 + (1 # 2))%Q) <$> exact_value p.

(** ** Sample data *)

Definition sample_snapshot : Update :=
  mkUpdate Snapshot 1000 Bid (mkLevel (mkPrice 0) (mkQty 0))
    [mkLevel (mkPrice 10000) (mkQty 1); mkLevel (mkPrice 9950) (mkQty 2)]
    [mkLevel (mkPrice 10050) (mkQty 3); mkLevel (mkPrice 10100) (mkQty 4)].

Definition sample_incremental (s : Side) (p : Z) (q : float) (ts : Z) : Update :=
  mkUpdate Incremental ts s (mkLevel (mkPrice p) (mkQty q)) [] [].

Definition sample_inputs : list (Update * Z) :=
  [(sample_snapshot, 5); (sample_incremental Bid 10025 5 1001, 6);
   (sample_incremental Ask 10050 0 1002, 7)].

Definition book_A : Orderbook := fst (apply sample_snapshot 5 book_new).

Definition header_line : list ascii :=
  list_ascii_of_string "type,exchange,symbol,timestamp,side,bids,asks,price,size".

(** ** orderbook.h: the observers *)

Definition book_best_bid (b : Orderbook) : option Level := cached_best_bid_ b.
Definition book_best_ask (b : Orderbook) : option Level := cached_best_ask_ b.
Definition bid_depth (b : Orderbook) : nat := size (bids_ b).
Definition ask_depth (b : Orderbook) : nat := size (asks_ b).

(** ** Further notions used in the statements *)

Definition side_cache (s : Side) (b : Orderbook) : option Level :=
  match s with Bid => cached_best_bid_ b | Ask => cached_best_ask_ b end.

Definition other_side (s : Side) : Side :=
  match s with Bid => Ask | Ask => Bid end.

Definition side_depth (s : Side) (b : Orderbook) : nat :=
  match s with Bid => bid_depth b | Ask => ask_depth b end.

(** No stored quantity satisfies [Qty::is_zero]. *)
Definition no_zero_entries (m : gmap Z float) : Prop :=
  forall k v, m !! k = Some v -> is_zero (mkQty v) = false.

(** The quantity of the last level of [ls] at price [k] whose quantity is
    not zero. *)
Definition last_live (k : Z) (ls : list Level) : option float :=
  last (value <$> (qty <$>
    filter (fun l => raw (price l) = k /\ is_zero (qty l) = false) ls)).

(** One incremental update per level, all on one side. *)
Definition as_incrementals (s : Side) (ls : list Level) : list (Update * Z) :=
  (fun l => (mkUpdate Incremental 0 s l [] [], 0)) <$> ls.

(** ** spsc_queue.h: the blocking calls, run by one thread

    While a blocking call spins, only the other thread can change the slot
    it waits for. Here no other thread runs during the call: a turn of the
    spin loop re-reads what it read before. [fuel] bounds the number of
    turns observed. *)

(** [push]: [None] when the call is still spinning after [fuel] turns. *)
Fixpoint push {T : Type} (Capacity : Z) (fuel : nat) (item : T) (q : SPSCQueue T)
  : option (SPSCQueue T) :=
  match fuel with
  | O => None
  | S fuel' =>
      let pos := head_ q in
      match slots_ q !! slot_index Capacity pos with
      | None => None
      | Some slot =>
          if negb (slot_seq slot =? pos) then push Capacity fuel' item q
          else Some (mkQueue (u64 (pos + 1)) (tail_ q)
                       (<[slot_index Capacity pos := mkSlot (u64 (pos + 1)) (Some item)]>
                          (slots_ q)))
      end
  end.

(** The producer loop of main.cpp on the ring: one blocking [push] per
    item. *)
Fixpoint push_each {T : Type} (Capacity : Z) (fuel : nat) (items : list T)
    (q : SPSCQueue T) : option (SPSCQueue T) :=
  match items with
  | [] => Some q
  | x :: rest => q' ← push Capacity fuel x q; push_each Capacity fuel rest q'
  end.

Inductive pop_outcome (T : Type) :=
| PopItem (item : T) (q : SPSCQueue T)   (* an element was dequeued *)
| PopClosed                              (* [nullopt]: closed and empty *)
| PopSpinning                            (* not returned within [fuel] turns *)
| PopUndefined.                          (* a slot without a live object was read *)

Arguments PopItem {T} _ _.
Arguments PopClosed {T}.
Arguments PopSpinning {T}.
Arguments PopUndefined {T}.

(** The code after the loop of [pop]. *)
Definition dequeue {T : Type} (Capacity : Z) (q : SPSCQueue T) : pop_outcome T :=
  let pos := tail_ q in
  match slots_ q !! slot_index Capacity pos with
  | Some (mkSlot _ (Some item)) =>
      PopItem item
        (mkQueue (head_ q) (u64 (pos + 1))
           (<[slot_index Capacity pos := mkSlot (u64 (pos + Capacity)) None]> (slots_ q)))
  | _ => PopUndefined
  end.

(** [pop(closed)], the flag holding the value [closed] throughout the call. *)
Fixpoint pop {T : Type} (Capacity : Z) (fuel : nat) (closed : bool) (q : SPSCQueue T)
  : pop_outcome T :=
  match fuel with
  | O => PopSpinning
  | S fuel' =>
      let pos := tail_ q in
      match slots_ q !! slot_index Capacity pos with
      | None => PopUndefined
      | Some slot =>
          if slot_seq slot =? u64 (pos + 1) then dequeue Capacity q
          else if closed then
                 (if slot_seq slot =? u64 (pos + 1) then dequeue Capacity q
                  else PopClosed)
               else pop Capacity fuel' closed q
      end
  end.

(** ** strategy.h: the consumer loop, run after the producer has finished

    [clock k] is the value returned by the [k]-th call of [Clock::now_ns].
    The lines printed when logging is enabled are not part of the model; the
    statistics do not depend on them. [None]: the loop has not ended within
    [fuel] turns. *)
Fixpoint run_strategy (Capacity : Z) (fuel : nat) (clock : nat -> Z) (k : nat)
    (closed : bool) (q : SPSCQueue BookNotification) (stats : StrategyStats)
  : option StrategyStats :=
  match fuel with
  | O => None
  | S fuel' =>
      match pop Capacity fuel closed q with
      | PopItem notif q' =>
          let recv_ns := clock k in
          let latency_ns := u64 (recv_ns - engine_send_ns notif) in
          run_strategy Capacity fuel' clock (S k) closed q' (record latency_ns stats)
      | PopClosed => Some stats
      | PopSpinning => None
      | PopUndefined => None
      end
  end.

(** ** A bounded FIFO, to compare the ring with *)

Inductive ring_op (T : Type) :=
| OpPush (x : T)
| OpPop.

Arguments OpPush {T} _.
Arguments OpPop {T}.

Inductive ring_result (T : Type) :=
| ResPush (ok : bool)
| ResPop (r : option T).

Arguments ResPush {T} _.
Arguments ResPop {T} _.

Definition ring_step {T : Type} (Capacity : Z) (op : ring_op T) (q : SPSCQueue T)
  : ring_result T * SPSCQueue T :=
  match op with
  | OpPush x => (ResPush (fst (try_push Capacity x q)), snd (try_push Capacity x q))
  | OpPop => (ResPop (fst (try_pop Capacity q)), snd (try_pop Capacity q))
  end.

Fixpoint ring_run {T : Type} (Capacity : Z) (ops : list (ring_op T)) (q : SPSCQueue T)
  : list (ring_result T) :=
  match ops with
  | [] => []
  | op :: rest =>
      fst (ring_step Capacity op q) :: ring_run Capacity rest (snd (ring_step Capacity op q))
  end.

Definition fifo_step {T : Type} (Capacity : Z) (op : ring_op T) (xs : list T)
  : ring_result T * list T :=
  match op with
  | OpPush x =>
      if Z.of_nat (length xs) <? Capacity then (ResPush true, xs ++ [x])
      else (ResPush false, xs)
  | OpPop =>
      match xs with
      | [] => (ResPop None, [])
      | x :: rest => (ResPop (Some x), rest)
      end
  end.

Fixpoint fifo_run {T : Type} (Capacity : Z) (ops : list (ring_op T)) (xs : list T)
  : list (ring_result T) :=
  match ops with
  | [] => []
  | op :: rest =>
      fst (fifo_step Capacity op xs) :: fifo_run Capacity rest (snd (fifo_step Capacity op xs))
  end.

(** The latencies the consumer records for the notifications [ns], its
    first clock reading being the [k]-th. *)
Fixpoint latencies_of (clock : nat -> Z) (k : nat) (ns : list BookNotification)
  : list Z :=
  match ns with
  | [] => []
  | n :: rest => u64 (clock k - engine_send_ns n) :: latencies_of clock (S k) rest
  end.

Definition record_all (lats : list Z) (s : StrategyStats) : StrategyStats :=
  fold_left (fun s lat => record lat s) lats s.

Definition sum_of (l : list Z) : Z := fold_right Z.add 0 l.

(** ** clock.h *)

(** [Clock::now_ns] on the [timespec] that [clock_gettime] filled in. *)
Definition now_ns (tv_sec tv_nsec : Z) : Z :=
  u64 (u64 (u64 tv_sec * 1000000000) + u64 tv_nsec).

(** ** Text notions used in the statements about the parser *)

Definition digit_char (d : Z) : ascii := ascii_of_N (Z.to_N (48 + d)).

Definition decimal_value (ds : list Z) : Z :=
  fold_left (fun a d => a * 10 + d) ds 0.

(** The fields joined by commas. *)
Fixpoint join_fields (fs : list (list ascii)) : list ascii :=
  match fs with
  | [] => []
  | f :: rest =>
      match rest with
      | [] => f
      | _ :: _ => f ++ ","%char :: join_fields rest
      end
  end.


(** One line per element, each ended by a newline. *)
Definition unlines (ls : list (list ascii)) : list ascii :=
  concat ((fun l => l ++ [LF]) <$> ls).

Definition no_newline (l : list ascii) : Prop :=
  Forall (fun c => Ascii.eqb c LF = false) l.





Section ParserNotions.
Variable fp_contract : bool.
Variable strtod : list ascii -> float.
Variable indet_timestamp : Z.
Variable indet_side : Side.

(** The lines processed one after the other, each ended by a newline. *)
Fixpoint process_lines (ls : list (list ascii)) (out : list Update)
  : option (list Update) :=
  match ls with
  | [] => Some out
  | l :: rest =>
      out' ← process_line fp_contract strtod indet_timestamp indet_side l true out;
      process_lines rest out'
  end.


End ParserNotions.

(** A stand-in for [strtod] in examples. *)
Definition sample_strtod (text : list ascii) : float :=
  match text with [] => 0%float | _ :: _ => 1%float end.

(** * Part II: properties *)

(** ** Machine integers *)

Lemma u64_small z : 0 <= z < 2 ^ 64 -> u64 z = z.
Proof. intros H. unfold u64. now apply Z.mod_small. Qed.

Lemma u64_range z : 0 <= u64 z < 2 ^ 64.
Proof. unfold u64. apply Z.mod_pos_bound. lia. Qed.

Lemma u64_succ_neq z : u64 (u64 z + 1) <> u64 z.
Proof.
  pose proof (u64_range z) as Hr. unfold u64 in *.
  destruct (Z.eq_dec (z mod 2 ^ 64) (2 ^ 64 - 1)) as [E|E].
  - rewrite E. replace (2 ^ 64 - 1 + 1) with (1 * 2 ^ 64) by lia.
    rewrite Z.mod_mul by lia. lia.
  - rewrite (Z.mod_small (z mod 2 ^ 64 + 1)) by lia. lia.
Qed.

Lemma u64_add_l a b : u64 (u64 a + b) = u64 (a + b).
Proof. unfold u64. apply Zplus_mod_idemp_l. Qed.

Lemma u64_neq_succ t : u64 t <> u64 (t + 1).
Proof.
  intros E. unfold u64 in E.
  assert (Hd : 1 mod 2 ^ 64 = 0).
  { replace 1 with ((t + 1) - t) at 1 by lia.
    rewrite Zminus_mod, E, Z.sub_diag. apply Z.mod_0_l. lia. }
  rewrite Z.mod_small in Hd by lia. lia.
Qed.

(** ** The scenarios of the specification, evaluated *)

Example scenario_A :
  snd (apply sample_snapshot 5 book_new)
  = mkNotification 1000 5 (Some (mkLevel (mkPrice 10000) (mkQty 1)))
                   (Some (mkLevel (mkPrice 10050) (mkQty 3))) 1.
Proof. vm_compute. reflexivity. Qed.

Example scenario_B :
  let r := apply (sample_incremental Bid 10025 5 1001) 6 book_A in
  snd r = mkNotification 1001 6 (Some (mkLevel (mkPrice 10025) (mkQty 5)))
                         (Some (mkLevel (mkPrice 10050) (mkQty 3))) 2 /\
  size (bids_ (fst r)) = 3%nat.
Proof. vm_compute. split; reflexivity. Qed.

Example scenario_C :
  let r := apply (sample_incremental Ask 10050 0 1002) 6 book_A in
  snd r = mkNotification 1002 6 (Some (mkLevel (mkPrice 10000) (mkQty 1)))
                         (Some (mkLevel (mkPrice 10100) (mkQty 4))) 2 /\
  size (asks_ (fst r)) = 1%nat.
Proof. vm_compute. split; reflexivity. Qed.

Example scenario_D :
  apply (sample_incremental Bid 10000 0 1) 2 book_new
  = (mkBook ∅ ∅ None None 1, mkNotification 1 2 None None 1).
Proof. vm_compute. reflexivity. Qed.

Example scenario_F :
  let u := mkUpdate Snapshot 1 Bid (mkLevel (mkPrice 0) (mkQty 0))
             [mkLevel (mkPrice 10000) (mkQty 1); mkLevel (mkPrice 10000) (mkQty 2)] [] in
  let r := apply u 2 book_new in
  best_bid (snd r) = Some (mkLevel (mkPrice 10000) (mkQty 2)) /\
  size (bids_ (fst r)) = 1%nat.
Proof. vm_compute. split; reflexivity. Qed.

(** ** Properties of [apply] *)

(** C3. For every book, update and [send_ns], [apply] returns (it is a total
    function) a notification that carries the update's timestamp, [send_ns]
    unchanged, the cached bests of the mutated book, and the incremented
    sequence counter. *)
Theorem apply_notification (b : Orderbook) (u : Update) (send_ns : Z) :
  exists b' n,
    apply u send_ns b = (b', n) /\
    update_timestamp n = timestamp u /\
    engine_send_ns n = send_ns /\
    best_bid n = cached_best_bid_ b' /\
    best_ask n = cached_best_ask_ b' /\
    seq_ b' = u64 (seq_ b + 1) /\
    seq n = seq_ b' /\
    (type u = Snapshot ->
       let m := apply_snapshot (bids u) (asks u) b in
       bids_ b' = bids_ m /\ asks_ b' = asks_ m /\
       cached_best_bid_ b' = cached_best_bid_ m /\
       cached_best_ask_ b' = cached_best_ask_ m) /\
    (type u = Incremental ->
       let m := apply_incremental (side u) (level u) b in
       bids_ b' = bids_ m /\ asks_ b' = asks_ m /\
       cached_best_bid_ b' = cached_best_bid_ m /\
       cached_best_ask_ b' = cached_best_ask_ m).
Proof.
  eexists _, _. split; [reflexivity|]. cbn -[u64].
  assert (Hseq : forall s l, seq_ (apply_incremental s l b) = seq_ b).
  { intros s l. unfold apply_incremental, refresh_best_bid, refresh_best_ask.
    destruct s; repeat (case_match; cbn); reflexivity. }
  repeat split; try (destruct (type u); cbn; congruence).
  all: destruct (type u); cbn; [reflexivity | now rewrite Hseq].
Qed.

(** ** The extremal entries are what [rbegin()] and [begin()] return *)

Lemma map_rbegin_greatest m : greatest_entry m (map_rbegin m).
Proof.
  unfold map_rbegin.
  apply (map_fold_weak_ind (fun r m => greatest_entry m r)); [reflexivity|].
  intros i x m0 r Hi IH. unfold pick_greater.
  destruct r as [[k v]|]; simpl in *.
  - destruct IH as [Hk Hmax].
    assert (i <> k) by congruence.
    destruct (Z.ltb_spec k i); simpl.
    + split; [apply lookup_insert_eq|].
      intros j Hj. destruct (decide (i = j)) as [->|Hne]; [lia|].
      rewrite lookup_insert_ne in Hj by done. specialize (Hmax j Hj). lia.
    + split; [now rewrite lookup_insert_ne|].
      intros j Hj. destruct (decide (i = j)) as [<-|Hne]; [lia|].
      rewrite lookup_insert_ne in Hj by done. now apply Hmax.
  - subst m0. split; [apply lookup_insert_eq|].
    intros j Hj. destruct (decide (i = j)) as [<-|Hne]; [lia|].
    rewrite lookup_insert_ne, lookup_empty in Hj by done.
    now destruct Hj.
Qed.

Lemma map_begin_least m : least_entry m (map_begin m).
Proof.
  unfold map_begin.
  apply (map_fold_weak_ind (fun r m => least_entry m r)); [reflexivity|].
  intros i x m0 r Hi IH. unfold pick_smaller.
  destruct r as [[k v]|]; simpl in *.
  - destruct IH as [Hk Hmin].
    assert (i <> k) by congruence.
    destruct (Z.ltb_spec i k); simpl.
    + split; [apply lookup_insert_eq|].
      intros j Hj. destruct (decide (i = j)) as [->|Hne]; [lia|].
      rewrite lookup_insert_ne in Hj by done. specialize (Hmin j Hj). lia.
    + split; [now rewrite lookup_insert_ne|].
      intros j Hj. destruct (decide (i = j)) as [<-|Hne]; [lia|].
      rewrite lookup_insert_ne in Hj by done. now apply Hmin.
  - subst m0. split; [apply lookup_insert_eq|].
    intros j Hj. destruct (decide (i = j)) as [<-|Hne]; [lia|].
    rewrite lookup_insert_ne, lookup_empty in Hj by done.
    now destruct Hj.
Qed.

(** The greatest (least) entry of a map is unique. *)
Lemma greatest_entry_unique m o1 o2 :
  greatest_entry m o1 -> greatest_entry m o2 -> o1 = o2.
Proof.
  destruct o1 as [[k1 v1]|], o2 as [[k2 v2]|]; simpl.
  - intros [H1 M1] [H2 M2].
    assert (k1 = k2) by (specialize (M1 k2); specialize (M2 k1);
                         rewrite H1 in M2; rewrite H2 in M1;
                         pose proof (M1 (mk_is_Some _ _ eq_refl));
                         pose proof (M2 (mk_is_Some _ _ eq_refl)); lia).
    subst. congruence.
  - intros [H1 _] ->. now rewrite lookup_empty in H1.
  - intros -> [H2 _]. now rewrite lookup_empty in H2.
  - reflexivity.
Qed.

Lemma least_entry_unique m o1 o2 :
  least_entry m o1 -> least_entry m o2 -> o1 = o2.
Proof.
  destruct o1 as [[k1 v1]|], o2 as [[k2 v2]|]; simpl.
  - intros [H1 M1] [H2 M2].
    assert (k1 = k2) by (specialize (M1 k2); specialize (M2 k1);
                         rewrite H1 in M2; rewrite H2 in M1;
                         pose proof (M1 (mk_is_Some _ _ eq_refl));
                         pose proof (M2 (mk_is_Some _ _ eq_refl)); lia).
    subst. congruence.
  - intros [H1 _] ->. now rewrite lookup_empty in H1.
  - intros -> [H2 _]. now rewrite lookup_empty in H2.
  - reflexivity.
Qed.

(** ** Cache consistency *)

Lemma level_of_entry_of_level l : level_of_entry (entry_of_level l) = l.
Proof. now destruct l as [[r] [v]]. Qed.

Lemma entry_of_level_of_entry e : entry_of_level (level_of_entry e) = e.
Proof. now destruct e. Qed.

Lemma refresh_best_bid_ok b : bid_cache_ok (refresh_best_bid b).
Proof.
  unfold bid_cache_ok, refresh_best_bid; simpl.
  rewrite <- option_fmap_compose.
  erewrite option_fmap_ext; [rewrite option_fmap_id; apply map_rbegin_greatest|].
  intros e; apply entry_of_level_of_entry.
Qed.

Lemma refresh_best_ask_ok b : ask_cache_ok (refresh_best_ask b).
Proof.
  unfold ask_cache_ok, refresh_best_ask; simpl.
  rewrite <- option_fmap_compose.
  erewrite option_fmap_ext; [rewrite option_fmap_id; apply map_begin_least|].
  intros e; apply entry_of_level_of_entry.
Qed.

Lemma apply_snapshot_consistent bs as_ b : cache_consistent (apply_snapshot bs as_ b).
Proof.
  unfold apply_snapshot. split.
  - pose proof (refresh_best_bid_ok
      (mkBook (load_levels bs ∅) (load_levels as_ ∅)
              (cached_best_bid_ b) (cached_best_ask_ b) (seq_ b))) as H.
    exact H.
  - apply refresh_best_ask_ok.
Qed.

Lemma is_Some_delete (m : gmap Z float) i j :
  is_Some (delete i m !! j) -> is_Some (m !! j).
Proof.
  destruct (decide (i = j)) as [->|Hne].
  - rewrite lookup_delete_eq. now intros [? ?].
  - now rewrite lookup_delete_ne.
Qed.

Lemma is_Some_insert (m : gmap Z float) i x j :
  is_Some (<[i:=x]> m !! j) -> j = i \/ is_Some (m !! j).
Proof.
  destruct (decide (i = j)) as [->|Hne]; [now left|].
  rewrite lookup_insert_ne by done. now right.
Qed.

Lemma bid_side_consistent (l : Level) (m : gmap Z float) (c : option Level) :
  greatest_entry m (entry_of_level <$> c) ->
  greatest_entry
    (if is_zero (qty l) then delete (raw (price l)) m
     else <[raw (price l) := value (qty l)]> m)
    (entry_of_level <$>
       (if is_zero (qty l) then
          if cache_at c (price l)
          then level_of_entry <$> map_rbegin (delete (raw (price l)) m)
          else c
        else match c with
             | None => Some l
             | Some c0 => if price_ge (price l) (price c0) then Some l else Some c0
             end)).
Proof.
  intros Hc. destruct (is_zero (qty l)).
  - destruct c as [c0|]; simpl in *.
    + unfold price_eq. destruct (Z.eqb_spec (raw (price c0)) (raw (price l))) as [He|Hne].
      * rewrite <- option_fmap_compose.
        erewrite option_fmap_ext; [rewrite option_fmap_id; apply map_rbegin_greatest|].
        intros e; apply entry_of_level_of_entry.
      * simpl. destruct Hc as [Hk Hmax]. split.
        -- now rewrite lookup_delete_ne.
        -- intros j Hj. apply Hmax. eapply is_Some_delete; eauto.
    + subst m. apply delete_empty.
  - destruct c as [c0|]; simpl in *.
    + destruct Hc as [Hk Hmax]. unfold price_ge.
      destruct (Z.geb_spec (raw (price l)) (raw (price c0))) as [Hge|Hlt]; simpl.
      * split; [apply lookup_insert_eq|].
        intros j Hj. apply is_Some_insert in Hj as [->|Hj]; [lia|].
        specialize (Hmax j Hj). lia.
      * split; [rewrite lookup_insert_ne by lia; exact Hk|].
        intros j Hj. apply is_Some_insert in Hj as [->|Hj]; [lia|].
        now apply Hmax.
    + subst m. split; [apply lookup_insert_eq|].
      intros j Hj. apply is_Some_insert in Hj as [->|Hj]; [lia|].
      rewrite lookup_empty in Hj. now destruct Hj.
Qed.

Lemma ask_side_consistent (l : Level) (m : gmap Z float) (c : option Level) :
  least_entry m (entry_of_level <$> c) ->
  least_entry
    (if is_zero (qty l) then delete (raw (price l)) m
     else <[raw (price l) := value (qty l)]> m)
    (entry_of_level <$>
       (if is_zero (qty l) then
          if cache_at c (price l)
          then level_of_entry <$> map_begin (delete (raw (price l)) m)
          else c
        else match c with
             | None => Some l
             | Some c0 => if price_le (price l) (price c0) then Some l else Some c0
             end)).
Proof.
  intros Hc. destruct (is_zero (qty l)).
  - destruct c as [c0|]; simpl in *.
    + unfold price_eq. destruct (Z.eqb_spec (raw (price c0)) (raw (price l))) as [He|Hne].
      * rewrite <- option_fmap_compose.
        erewrite option_fmap_ext; [rewrite option_fmap_id; apply map_begin_least|].
        intros e; apply entry_of_level_of_entry.
      * simpl. destruct Hc as [Hk Hmin]. split.
        -- now rewrite lookup_delete_ne.
        -- intros j Hj. apply Hmin. eapply is_Some_delete; eauto.
    + subst m. apply delete_empty.
  - destruct c as [c0|]; simpl in *.
    + destruct Hc as [Hk Hmin]. unfold price_le.
      destruct (Z.leb_spec (raw (price l)) (raw (price c0))) as [Hle|Hgt]; simpl.
      * split; [apply lookup_insert_eq|].
        intros j Hj. apply is_Some_insert in Hj as [->|Hj]; [lia|].
        specialize (Hmin j Hj). lia.
      * split; [rewrite lookup_insert_ne by lia; exact Hk|].
        intros j Hj. apply is_Some_insert in Hj as [->|Hj]; [lia|].
        now apply Hmin.
    + subst m. split; [apply lookup_insert_eq|].
      intros j Hj. apply is_Some_insert in Hj as [->|Hj]; [lia|].
      rewrite lookup_empty in Hj. now destruct Hj.
Qed.

Lemma apply_incremental_consistent s l b :
  cache_consistent b -> cache_consistent (apply_incremental s l b).
Proof.
  intros [Hb Ha]. unfold cache_consistent, bid_cache_ok, ask_cache_ok in *.
  pose proof (bid_side_consistent l _ _ Hb) as Hb'.
  pose proof (ask_side_consistent l _ _ Ha) as Ha'.
  unfold apply_incremental, refresh_best_bid, refresh_best_ask.
  destruct s; destruct (is_zero (qty l)); simpl in *.
  - destruct (cache_at (cached_best_bid_ b) (price l)); simpl; auto.
  - auto.
  - destruct (cache_at (cached_best_ask_ b) (price l)); simpl; auto.
  - auto.
Qed.

Lemma apply_consistent u ns b :
  cache_consistent b -> cache_consistent (fst (apply u ns b)).
Proof.
  intros H. unfold apply. simpl.
  assert (Hm : cache_consistent
                 (match type u with
                  | Snapshot => apply_snapshot (bids u) (asks u) b
                  | Incremental => apply_incremental (side u) (level u) b
                  end)).
  { destruct (type u); [apply apply_snapshot_consistent
                       | now apply apply_incremental_consistent]. }
  exact Hm.
Qed.

Lemma run_cons b u ns rest :
  run b ((u, ns) :: rest)
  = (fst (run (fst (apply u ns b)) rest),
     snd (apply u ns b) :: snd (run (fst (apply u ns b)) rest)).
Proof.
  cbn [run]. destruct (apply u ns b) as [b1 n]. cbn [fst snd].
  destruct (run b1 rest) as [b2 ns']. reflexivity.
Qed.

Lemma run_consistent inputs : forall b,
  cache_consistent b -> cache_consistent (fst (run b inputs)).
Proof.
  induction inputs as [|[u ns] rest IH]; intros b Hb; [exact Hb|].
  rewrite run_cons. cbn [fst]. apply IH. now apply apply_consistent.
Qed.

Lemma book_new_consistent : cache_consistent book_new.
Proof. split; reflexivity. Qed.

(** C1. After any finite sequence of applies from the empty book (hence
    after each apply of a run, every prefix being such a sequence), the
    cached best bid is absent iff the bid map is empty, and otherwise its
    price is the greatest bid key and its quantity the value stored there;
    symmetrically the cached best ask with the least ask key. *)
Theorem cache_consistency_from_empty (inputs : list (Update * Z)) :
  let b := fst (run book_new inputs) in
  (cached_best_bid_ b = None <-> bids_ b = ∅) /\
  (forall l, cached_best_bid_ b = Some l ->
     bids_ b !! raw (price l) = Some (value (qty l)) /\
     forall k, is_Some (bids_ b !! k) -> k <= raw (price l)) /\
  (cached_best_ask_ b = None <-> asks_ b = ∅) /\
  (forall l, cached_best_ask_ b = Some l ->
     asks_ b !! raw (price l) = Some (value (qty l)) /\
     forall k, is_Some (asks_ b !! k) -> raw (price l) <= k).
Proof.
  intros b. destruct (run_consistent inputs book_new book_new_consistent) as [Hb Ha].
  fold b in Hb, Ha. unfold bid_cache_ok, ask_cache_ok in *.
  repeat split.
  - intros E. now rewrite E in Hb.
  - intros E. destruct (cached_best_bid_ b) as [l|]; [|reflexivity].
    simpl in Hb. destruct Hb as [Hk _]. rewrite E, lookup_empty in Hk. discriminate.
  - rewrite H in Hb. apply Hb.
  - rewrite H in Hb. apply Hb.
  - intros E. now rewrite E in Ha.
  - intros E. destruct (cached_best_ask_ b) as [l|]; [|reflexivity].
    simpl in Ha. destruct Ha as [Hk _]. rewrite E, lookup_empty in Hk. discriminate.
  - rewrite H in Ha. apply Ha.
  - rewrite H in Ha. apply Ha.
Qed.

(** ** The sequence counter *)

Lemma apply_seq u ns b : seq_ (fst (apply u ns b)) = u64 (seq_ b + 1).
Proof.
  unfold apply. cbn [fst seq_]. f_equal. f_equal.
  destruct (type u); [reflexivity|].
  unfold apply_incremental, refresh_best_bid, refresh_best_ask.
  destruct (side u); repeat (case_match; cbn); reflexivity.
Qed.

Lemma notification_seq_is_counter u ns b :
  seq (snd (apply u ns b)) = seq_ (fst (apply u ns b)).
Proof. reflexivity. Qed.

Lemma run_seqs inputs : forall b,
  0 <= seq_ b ->
  seq_ b + Z.of_nat (length inputs) < 2 ^ 64 ->
  seq <$> snd (run b inputs) = seqZ (seq_ b + 1) (Z.of_nat (length inputs)) /\
  seq_ (fst (run b inputs)) = seq_ b + Z.of_nat (length inputs).
Proof.
  induction inputs as [|[u ns] rest IH]; intros b H0 Hlt.
  - cbn. split; [reflexivity | lia].
  - rewrite run_cons. cbn [fst snd length] in *.
    assert (Hs : seq_ (fst (apply u ns b)) = seq_ b + 1).
    { rewrite apply_seq. apply u64_small. lia. }
    destruct (IH (fst (apply u ns b))) as [IH1 IH2]; [lia | lia |].
    split.
    + rewrite fmap_cons, IH1, notification_seq_is_counter, Hs.
      rewrite (seqZ_cons (seq_ b + 1)) by lia.
      f_equal. f_equal; lia.
    + rewrite IH2, Hs. lia.
Qed.

(** C2. From a fresh book ([seq_ = 0]) every [apply] increments the counter
    by one and the notification carries the new value: a run of [n] applies
    (with [n] below 2^64, the range of the counter and more than any
    [std::vector<Update>] can hold) yields notifications whose [seq] fields
    are exactly 1, 2, ..., n, and leaves the counter at [n]. *)
Theorem run_seq_values (inputs : list (Update * Z)) :
  Z.of_nat (length inputs) < 2 ^ 64 ->
  seq <$> snd (run book_new inputs) = seqZ 1 (Z.of_nat (length inputs)) /\
  seq_ (fst (run book_new inputs)) = Z.of_nat (length inputs) /\
  forall pre u ns post, inputs = pre ++ (u, ns) :: post ->
    let b := fst (run book_new pre) in
    seq_ (fst (apply u ns b)) = seq_ b + 1 /\
    seq (snd (apply u ns b)) = seq_ b + 1.
Proof.
  intros Hlen.
  destruct (run_seqs inputs book_new) as [H1 H2]; [cbn; lia | cbn; lia |].
  split; [exact H1|]. split; [exact H2|].
  intros pre u ns post -> b.
  rewrite length_app in Hlen. cbn [length] in Hlen.
  destruct (run_seqs pre book_new) as [_ Hb]; [cbn; lia | cbn; lia |].
  fold b in Hb. cbn in Hb.
  rewrite notification_seq_is_counter, apply_seq.
  rewrite u64_small by lia. lia.
Qed.

Lemma run_seq_values_witness :
  seq <$> snd (run book_new sample_inputs) = [1; 2; 3] /\
  seq_ (fst (run book_new sample_inputs)) = 3.
Proof.
  destruct (run_seq_values sample_inputs) as (H1 & H2 & _).
  - cbn. lia.
  - split; [exact H1 | exact H2].
Defined.

(** ** Snapshots *)

(** The maps and caches after a snapshot depend on the snapshot only. *)
Lemma apply_snapshot_state bs as_ b :
  apply_snapshot bs as_ b
  = mkBook (load_levels bs ∅) (load_levels as_ ∅)
           (level_of_entry <$> map_rbegin (load_levels bs ∅))
           (level_of_entry <$> map_begin (load_levels as_ ∅))
           (seq_ b).
Proof. reflexivity. Qed.

(** C6. Applying the same snapshot twice in a row leaves the maps and both
    caches as they were after the first application; the two notifications
    agree on [update_timestamp], [best_bid] and [best_ask]; they carry the
    two [send_ns] values given and consecutive, distinct [seq] values. *)
Theorem snapshot_idempotent (b : Orderbook) (s : Update) (ns1 ns2 : Z) :
  type s = Snapshot ->
  let r1 := apply s ns1 b in
  let r2 := apply s ns2 (fst r1) in
  bids_ (fst r2) = bids_ (fst r1) /\
  asks_ (fst r2) = asks_ (fst r1) /\
  cached_best_bid_ (fst r2) = cached_best_bid_ (fst r1) /\
  cached_best_ask_ (fst r2) = cached_best_ask_ (fst r1) /\
  update_timestamp (snd r2) = update_timestamp (snd r1) /\
  best_bid (snd r2) = best_bid (snd r1) /\
  best_ask (snd r2) = best_ask (snd r1) /\
  engine_send_ns (snd r1) = ns1 /\ engine_send_ns (snd r2) = ns2 /\
  seq (snd r2) = u64 (seq (snd r1) + 1) /\
  seq (snd r2) <> seq (snd r1).
Proof.
  intros Ht r1 r2.
  assert (Hs2 : seq (snd r2) = u64 (seq (snd r1) + 1)).
  { unfold r2. now rewrite !notification_seq_is_counter, apply_seq. }
  assert (Hs1 : seq (snd r1) = u64 (seq_ b + 1)).
  { unfold r1. now rewrite notification_seq_is_counter, apply_seq. }
  unfold r1, r2, apply in *. rewrite Ht in *. rewrite !apply_snapshot_state in *.
  cbn [fst snd bids_ asks_ cached_best_bid_ cached_best_ask_ update_timestamp
       best_bid best_ask engine_send_ns] in *.
  repeat split; try reflexivity; try assumption.
  rewrite Hs2, Hs1. apply u64_succ_neq.
Qed.

Lemma snapshot_idempotent_witness :
  let r1 := apply sample_snapshot 1 book_new in
  let r2 := apply sample_snapshot 2 (fst r1) in
  bids_ (fst r2) = bids_ (fst r1) /\
  asks_ (fst r2) = asks_ (fst r1) /\
  cached_best_bid_ (fst r2) = cached_best_bid_ (fst r1) /\
  cached_best_ask_ (fst r2) = cached_best_ask_ (fst r1) /\
  update_timestamp (snd r2) = update_timestamp (snd r1) /\
  best_bid (snd r2) = best_bid (snd r1) /\
  best_ask (snd r2) = best_ask (snd r1) /\
  engine_send_ns (snd r1) = 1 /\ engine_send_ns (snd r2) = 2 /\
  seq (snd r2) = u64 (seq (snd r1) + 1) /\
  seq (snd r2) <> seq (snd r1).
Proof.
  apply (snapshot_idempotent book_new sample_snapshot 1 2). reflexivity.
Defined.

(** ** Incremental deletes *)

Lemma cache_at_absent_greatest (m : gmap Z float) c p :
  greatest_entry m (entry_of_level <$> c) -> m !! raw p = None -> cache_at c p = false.
Proof.
  intros Hc Hp. destruct c as [c0|]; [|reflexivity]. cbn in *.
  unfold price_eq. destruct (Z.eqb_spec (raw (price c0)) (raw p)) as [E|]; [|reflexivity].
  destruct Hc as [Hk _]. rewrite E in Hk. congruence.
Qed.

Lemma cache_at_absent_least (m : gmap Z float) c p :
  least_entry m (entry_of_level <$> c) -> m !! raw p = None -> cache_at c p = false.
Proof.
  intros Hc Hp. destruct c as [c0|]; [|reflexivity]. cbn in *.
  unfold price_eq. destruct (Z.eqb_spec (raw (price c0)) (raw p)) as [E|]; [|reflexivity].
  destruct Hc as [Hk _]. rewrite E in Hk. congruence.
Qed.

(** C7. On a cache-consistent book, an incremental update with a zero
    quantity at a price absent from its side's map leaves both maps and both
    caches unchanged; only the sequence counter advances by one. *)
Theorem delete_absent_frame (b : Orderbook) (u : Update) (ns : Z) :
  cache_consistent b ->
  type u = Incremental ->
  is_zero (qty (level u)) = true ->
  side_map (side u) b !! raw (price (level u)) = None ->
  let b' := fst (apply u ns b) in
  bids_ b' = bids_ b /\ asks_ b' = asks_ b /\
  cached_best_bid_ b' = cached_best_bid_ b /\
  cached_best_ask_ b' = cached_best_ask_ b /\
  seq_ b' = u64 (seq_ b + 1).
Proof.
  intros [Hb Ha] Ht Hz Habs b'.
  assert (Hseq : seq_ b' = u64 (seq_ b + 1)) by apply apply_seq.
  unfold b', apply in *. rewrite Ht. unfold apply_incremental. rewrite Hz.
  destruct (side u); cbn [side_map] in Habs;
    cbn [fst bids_ asks_ cached_best_bid_ cached_best_ask_ seq_].
  - rewrite (cache_at_absent_greatest _ _ _ Hb Habs).
    cbn [bids_ asks_ cached_best_bid_ cached_best_ask_].
    rewrite (delete_id _ _ Habs). repeat split; reflexivity.
  - rewrite (cache_at_absent_least _ _ _ Ha Habs).
    cbn [bids_ asks_ cached_best_bid_ cached_best_ask_].
    rewrite (delete_id _ _ Habs). repeat split; reflexivity.
Qed.

Lemma book_A_consistent : cache_consistent book_A.
Proof. apply apply_consistent, book_new_consistent. Qed.

Lemma delete_absent_frame_witness :
  let b' := fst (apply (sample_incremental Bid 9900 0 1003) 9 book_A) in
  bids_ b' = bids_ book_A /\ asks_ b' = asks_ book_A /\
  cached_best_bid_ b' = cached_best_bid_ book_A /\
  cached_best_ask_ b' = cached_best_ask_ book_A /\
  seq_ b' = 2.
Proof.
  apply (delete_absent_frame book_A (sample_incremental Bid 9900 0 1003) 9).
  - exact book_A_consistent.
  - reflexivity.
  - reflexivity.
  - vm_compute. reflexivity.
Defined.

(** ** Fixed-point conversion *)

Example from_f64_100_25 :
  from_f64 false 100.25 = Some (mkPrice 10025) /\
  from_f64 true 100.25 = Some (mkPrice 10025).
Proof. vm_compute. split; reflexivity. Qed.

Example round_half_up_100_25 : round_half_up_cents 100.25 = Some 10025.
Proof. vm_compute. reflexivity. Qed.

Example to_f64_10025 : to_f64 (mkPrice 10025) = 100.25%float.
Proof. vm_compute. reflexivity. Qed.

Example to_f64_max : to_f64 (mkPrice (2 ^ 64 - 1)) = 184467440737095520%float.
Proof. vm_compute. reflexivity. Qed.

(** The fused multiply-add rounds once: [0.1 * 0.1 - 0.01] is not zero. *)
Example fma_rounds_once :
  fma 0.1 0.1 (-0.01) = 0x1.0a3d70a3d70a4p-60%float /\
  (0.1 * 0.1 + -0.01)%float = 0x1p-59%float.
Proof. vm_compute. split; reflexivity. Qed.

(** The two evaluations of [p * 100.0 + 0.5] can differ. The double
    [0x1.47ae147ae147ap-8] is slightly below 0.005: rounding the product
    first gives 0.5 and then exactly 1.0, so [from_f64] returns 1; the fused
    evaluation rounds the exact sum to the double just below 1.0, and
    [from_f64] returns 0. *)
Example from_f64_depends_on_contraction :
  from_f64 false 0x1.47ae147ae147ap-8 = Some (mkPrice 1) /\
  from_f64 true 0x1.47ae147ae147ap-8 = Some (mkPrice 0).
Proof. vm_compute. split; reflexivity. Qed.

(** C9, as stated, fails, whichever way [p * 100.0 + 0.5] is evaluated.
    The double [0x1.eb851eb851eb8p-7] is slightly below 0.015: round-half-up
    of its hundredfold is 1, yet the separately rounded and the fused
    evaluation both give exactly 2.0 and [from_f64] returns 2. And a
    non-negative double such as [1e300] has no [uint64_t] image at all (the
    cast is undefined). *)
Lemma from_f64_not_exact_round_half_up :
  (0 <=? 0x1.eb851eb851eb8p-7)%float = true /\
  round_half_up_cents 0x1.eb851eb851eb8p-7 = Some 1 /\
  from_f64 false 0x1.eb851eb851eb8p-7 = Some (mkPrice 2) /\
  from_f64 true 0x1.eb851eb851eb8p-7 = Some (mkPrice 2) /\
  (0 <=? 1e300)%float = true /\
  from_f64 false 1e300 = None /\
  from_f64 true 1e300 = None.
Proof. vm_compute. repeat split; reflexivity. Qed.

Lemma trunc_mag_floor m e :
  trunc_mag m e
  = Qfloor (if 0 <=? e then inject_Z (Z.pos m * 2 ^ e)
            else (Z.pos m # Z.to_pos (2 ^ (- e)))%Q).
Proof.
  unfold trunc_mag. destruct (Z.leb_spec 0 e).
  - now rewrite Qfloor_Z.
  - cbn [Qfloor]. rewrite Z2Pos.id; [reflexivity|]. apply Z.pow_pos_nonneg; lia.
Qed.

Lemma magnitude_positive m e :
  (0 < (if 0 <=? e then inject_Z (Z.pos m * 2 ^ e)
        else (Z.pos m # Z.to_pos (2 ^ (- e)))))%Q.
Proof.
  destruct (Z.leb_spec 0 e).
  - unfold Qlt. cbn. assert (0 < 2 ^ e) by (apply Z.pow_pos_nonneg; lia). nia.
  - unfold Qlt. cbn. lia.
Qed.

(** The cast is the floor of a finite non-negative double below 2^64. *)
Lemma f64_to_u64_floor (x : float) (q : Q) :
  exact_value x = Some q ->
  (0 <= q)%Q ->
  Qfloor q < 2 ^ 64 ->
  f64_to_u64 x = Some (Qfloor q).
Proof.
  intros Hq Hnn Hlt. unfold f64_to_u64. unfold exact_value in Hq.
  destruct (Prim2SF x) as [s|s| |s m e]; try discriminate.
  - injection Hq as <-. reflexivity.
  - injection Hq as <-. pose proof (magnitude_positive m e) as Hpos.
    cbv zeta. rewrite trunc_mag_floor. destruct s.
    + exfalso. apply Qopp_le_compat in Hnn. rewrite Qopp_opp in Hnn.
      change (- 0)%Q with 0%Q in Hnn.
      exact (Qlt_not_le _ _ Hpos Hnn).
    + apply Z.ltb_lt in Hlt. rewrite Hlt. reflexivity.
Qed.

(** The cast is undefined on NaN, on the infinities and from 2^64 on. *)
Lemma f64_to_u64_undefined (x : float) :
  match exact_value x with
  | None => True
  | Some q => 2 ^ 64 <= Qfloor q
  end ->
  f64_to_u64 x = None.
Proof.
  unfold f64_to_u64, exact_value.
  destruct (Prim2SF x) as [s|s| |s m e]; try reflexivity.
  - intros H. exfalso. vm_compute in H. now apply H.
  - pose proof (magnitude_positive m e) as Hpos.
    cbv zeta. rewrite trunc_mag_floor. destruct s.
    + intros Hge. exfalso.
      assert (Hle : (inject_Z (2 ^ 64) <= inject_Z (Qfloor (- (if 0 <=? e then inject_Z (Z.pos m * 2 ^ e)
                     else (Z.pos m # Z.to_pos (2 ^ (- e))))%Q)))%Q)
        by (rewrite <- Zle_Qle; exact Hge).
      pose proof (Qfloor_le (- (if 0 <=? e then inject_Z (Z.pos m * 2 ^ e)
                     else (Z.pos m # Z.to_pos (2 ^ (- e))))%Q)) as Hfl.
      assert (Hneg : (- (if 0 <=? e then inject_Z (Z.pos m * 2 ^ e)
                     else (Z.pos m # Z.to_pos (2 ^ (- e)))) < 0)%Q).
      { apply Qopp_lt_compat in Hpos. exact Hpos. }
      assert (H0 : (0 < inject_Z (2 ^ 64))%Q) by reflexivity.
      eapply Qlt_irrefl. eapply Qlt_le_trans; [exact H0|].
      eapply Qle_trans; [exact Hle|]. eapply Qle_trans; [exact Hfl|].
      apply Qlt_le_weak. exact Hneg.
    + intros Hge. destruct (Z.ltb_spec (Qfloor (if 0 <=? e then inject_Z (Z.pos m * 2 ^ e)
                     else (Z.pos m # Z.to_pos (2 ^ (- e)))%Q)) (2 ^ 64)); [lia|reflexivity].
Qed.

(** C9, amended. Whether the build rounds the product and the sum of
    [p * 100.0 + 0.5] separately or contracts them into one fused
    multiply-add, [from_f64 p] is the floor of the double [x] so obtained,
    whenever [x] is finite, non-negative and its floor is below 2^64;
    [to_f64] converts [raw] to the nearest double and divides by [100.0] in
    binary64. *)
Theorem from_f64_floor_of_double (contract : bool) (p : float) (q : Q) :
  exact_value (scaled contract p) = Some q ->
  (0 <= q)%Q ->
  Qfloor q < 2 ^ 64 ->
  from_f64 contract p = Some (mkPrice (Qfloor q)) /\
  forall r, to_f64 (mkPrice r) = (u64_to_f64 r / 100)%float.
Proof.
  intros Hq Hnn Hlt. split; [|reflexivity].
  unfold from_f64. now rewrite (f64_to_u64_floor _ _ Hq Hnn Hlt).
Qed.

Lemma from_f64_floor_of_double_witness :
  from_f64 true 100.25 = Some (mkPrice 10025) /\
  forall r, to_f64 (mkPrice r) = (u64_to_f64 r / 100)%float.
Proof.
  apply (from_f64_floor_of_double true 100.25 (5511576912134144 # 549755813888)).
  - vm_compute. reflexivity.
  - vm_compute. discriminate.
  - vm_compute. reflexivity.
Defined.

(** ** Latency statistics *)

Example percentile_99_of_five :
  percentile 99 (record 30 (record 10 (record 50 (record 20 (record 40 stats_new)))))
  = Some 40.
Proof. vm_compute. reflexivity. Qed.

Example median_of_five :
  median (record 30 (record 10 (record 50 (record 20 (record 40 stats_new)))))
  = Some 30.
Proof. vm_compute. reflexivity. Qed.

(** C10. With no sample recorded ([count = 0], empty sample vector) the
    average, the median and every percentile are 0; none of them divides by
    zero or indexes the empty vector. *)
Theorem empty_stats_queries (s : StrategyStats) (p : float) :
  count s = 0 ->
  latencies s = [] ->
  avg_ns s = 0 /\ median s = Some 0 /\ percentile p s = Some 0.
Proof.
  intros Hc Hl. unfold avg_ns, median, percentile. rewrite Hc, Hl.
  repeat split; reflexivity.
Qed.

Lemma empty_stats_queries_witness :
  avg_ns stats_new = 0 /\ median stats_new = Some 0 /\
  percentile 99.9 stats_new = Some 0.
Proof.
  apply (empty_stats_queries stats_new 99.9); reflexivity.
Defined.

(** ** The ring as a bounded FIFO *)

Section SPSC_Properties.
Context {T : Type}.
Variable Capacity : Z.

(** What the [static_assert] and the type [size_t] give. *)
Hypothesis Capacity_range : 0 < Capacity < 2 ^ 64.
Hypothesis Capacity_pow2 : Z.land Capacity (Capacity - 1) = 0.

Lemma Capacity_is_pow2 : Capacity = 2 ^ Z.log2 Capacity.
Proof.
  pose proof (Z.log2_spec Capacity ltac:(lia)) as [Hlo Hhi].
  pose proof (Z.log2_nonneg Capacity) as Hk.
  destruct (Z.eq_dec Capacity (2 ^ Z.log2 Capacity)) as [|Hne]; [assumption|].
  exfalso.
  assert (Hbit : Z.testbit (Z.land Capacity (Capacity - 1)) (Z.log2 Capacity) = true).
  { rewrite Z.land_spec, Z.bit_log2 by lia.
    assert (Hl : Z.log2 (Capacity - 1) = Z.log2 Capacity).
    { apply Z.log2_unique; [lia|]. lia. }
    rewrite <- Hl. rewrite Z.bit_log2; [reflexivity|].
    assert (0 < 2 ^ Z.log2 Capacity) by (apply Z.pow_pos_nonneg; lia). lia. }
  rewrite Capacity_pow2, Z.bits_0 in Hbit. discriminate.
Qed.

Lemma Capacity_divides_word : (Capacity | 2 ^ 64).
Proof.
  pose proof (Z.log2_nonneg Capacity) as Hk.
  assert (Z.log2 Capacity < 64).
  { apply Z.log2_lt_pow2; lia. }
  exists (2 ^ (64 - Z.log2 Capacity)).
  rewrite Capacity_is_pow2 at 2. rewrite <- Z.pow_add_r by lia.
  f_equal. lia.
Qed.

Lemma slot_index_u64 p : slot_index Capacity (u64 p) = Z.to_nat (p mod Capacity).
Proof.
  unfold slot_index, MASK, u64. f_equal.
  assert (HM : Capacity - 1 = Z.ones (Z.log2 Capacity)).
  { rewrite Z.ones_equiv. pose proof Capacity_is_pow2. lia. }
  rewrite HM, Z.land_ones by apply Z.log2_nonneg.
  rewrite <- Capacity_is_pow2.
  apply Z.mod_mod_divide, Capacity_divides_word.
Qed.

Lemma pos_index_lt t i : (pos_index Capacity t i < Z.to_nat Capacity)%nat.
Proof.
  unfold pos_index.
  pose proof (Z.mod_pos_bound (t + Z.of_nat i) Capacity ltac:(lia)). lia.
Qed.

Lemma pos_index_inj t i j :
  Z.of_nat i < Capacity -> Z.of_nat j < Capacity ->
  pos_index Capacity t i = pos_index Capacity t j -> i = j.
Proof.
  unfold pos_index. intros Hi Hj E.
  pose proof (Z.mod_pos_bound (t + Z.of_nat i) Capacity ltac:(lia)).
  pose proof (Z.mod_pos_bound (t + Z.of_nat j) Capacity ltac:(lia)).
  apply Z2Nat.inj in E; [|lia|lia].
  destruct (Nat.lt_trichotomy i j) as [Hlt|[Heq|Hgt]]; [exfalso| exact Heq |exfalso].
  - assert (Hd : (Z.of_nat j - Z.of_nat i) mod Capacity = 0).
    { replace (Z.of_nat j - Z.of_nat i)
        with ((t + Z.of_nat j) - (t + Z.of_nat i)) by lia.
      rewrite Zminus_mod, E, Z.sub_diag. apply Z.mod_0_l. lia. }
    rewrite Z.mod_small in Hd by lia. lia.
  - assert (Hd : (Z.of_nat i - Z.of_nat j) mod Capacity = 0).
    { replace (Z.of_nat i - Z.of_nat j)
        with ((t + Z.of_nat i) - (t + Z.of_nat j)) by lia.
      rewrite Zminus_mod, E, Z.sub_diag. apply Z.mod_0_l. lia. }
    rewrite Z.mod_small in Hd by lia. lia.
Qed.

Lemma pos_index_shift t i : pos_index Capacity (t + 1) i = pos_index Capacity t (S i).
Proof. unfold pos_index. f_equal. f_equal. lia. Qed.

Lemma pos_index_wrap t : pos_index Capacity (t + 1) (Z.to_nat (Capacity - 1)) = pos_index Capacity t 0.
Proof.
  unfold pos_index. f_equal.
  replace (t + 1 + Z.of_nat (Z.to_nat (Capacity - 1)))
    with (t + Z.of_nat 0 + 1 * Capacity) by lia.
  apply Z.mod_add. lia.
Qed.

Lemma queue_new_rep : ring_rep Capacity (@queue_new T Capacity) 0 [].
Proof.
  split; cbn [queue_new head_ tail_ slots_ length]; try reflexivity; try lia.
  - rewrite length_fmap, length_seqZ. reflexivity.
  - intros i x Hx. rewrite lookup_nil in Hx. discriminate.
  - intros i _ Hi. unfold pos_index. rewrite Z.add_0_l.
    rewrite Z.mod_small by lia. rewrite Nat2Z.id.
    rewrite list_lookup_fmap, lookup_seqZ_lt by lia. cbn.
    now rewrite u64_small by lia.
Qed.

Lemma try_push_rep (x : T) q t xs :
  ring_rep Capacity q t xs ->
  Z.of_nat (length xs) < Capacity ->
  fst (try_push Capacity x q) = true /\
  ring_rep Capacity (snd (try_push Capacity x q)) t (xs ++ [x]).
Proof.
  intros [Ht Hb Htl Hhd Hlen Hfill Hfree] Hroom.
  pose proof (Hfree (length xs) (Nat.le_refl _) Hroom) as Hslot.
  unfold try_push. rewrite Hhd, slot_index_u64.
  change (Z.to_nat ((t + Z.of_nat (length xs)) mod Capacity))
    with (pos_index Capacity t (length xs)).
  rewrite Hslot. cbn [slot_seq]. rewrite Z.eqb_refl. cbn [negb fst snd].
  split; [reflexivity|].
  split; cbn [head_ tail_ slots_].
  - exact Ht.
  - rewrite length_app. cbn. lia.
  - exact Htl.
  - rewrite u64_add_l, length_app. cbn. f_equal. lia.
  - now rewrite length_insert.
  - intros i y Hy. destruct (decide (i = length xs)) as [->|Hne].
    + rewrite list_lookup_middle in Hy by reflexivity. injection Hy as <-.
      rewrite list_lookup_insert_eq by (rewrite Hlen; apply pos_index_lt).
      now rewrite u64_add_l.
    + assert (Hi : (i < length xs)%nat).
      { apply lookup_lt_Some in Hy. rewrite length_app in Hy. cbn in Hy. lia. }
      rewrite lookup_app_l in Hy by exact Hi.
      rewrite list_lookup_insert_ne; [now apply Hfill|].
      intros E. apply pos_index_inj in E; lia.
  - intros i Hi Hc. rewrite length_app in Hi. cbn in Hi.
    rewrite list_lookup_insert_ne; [apply Hfree; lia|].
    intros E. apply pos_index_inj in E; lia.
Qed.

Lemma u64_shift_neq t : 2 <= Capacity -> u64 (t + 1) <> u64 (t + Capacity).
Proof.
  intros H2 E. unfold u64 in E.
  assert (Hd : (Capacity - 1) mod 2 ^ 64 = 0).
  { replace (Capacity - 1) with ((t + Capacity) - (t + 1)) by lia.
    rewrite Zminus_mod, E, Z.sub_diag. apply Z.mod_0_l. lia. }
  rewrite Z.mod_small in Hd by lia. lia.
Qed.

(** With at least two slots, a full ring refuses the push and is unchanged. *)
Lemma try_push_full (x : T) q t xs :
  2 <= Capacity ->
  ring_rep Capacity q t xs ->
  Z.of_nat (length xs) = Capacity ->
  try_push Capacity x q = (false, q).
Proof.
  intros H2 [Ht Hb Htl Hhd Hlen Hfill Hfree] Hfull.
  destruct xs as [|x0 xs']; [cbn in Hfull; lia|].
  pose proof (Hfill 0%nat x0 eq_refl) as Hslot.
  unfold try_push. rewrite Hhd, slot_index_u64, Hfull.
  replace ((t + Capacity) mod Capacity) with ((t + Z.of_nat 0) mod Capacity).
  2:{ replace (t + Capacity) with (t + Z.of_nat 0 + 1 * Capacity) by lia.
      now rewrite Z.mod_add by lia. }
  change (Z.to_nat ((t + Z.of_nat 0) mod Capacity)) with (pos_index Capacity t 0).
  rewrite Hslot. cbn [slot_seq].
  replace (t + Z.of_nat 0 + 1) with (t + 1) by lia.
  destruct (Z.eqb_spec (u64 (t + 1)) (u64 (t + Capacity))) as [E|_]; [|reflexivity].
  now apply u64_shift_neq in E.
Qed.

Lemma try_pop_rep q t (x : T) xs :
  ring_rep Capacity q t (x :: xs) ->
  fst (try_pop Capacity q) = Some x /\ ring_rep Capacity (snd (try_pop Capacity q)) (t + 1) xs.
Proof.
  intros [Ht Hb Htl Hhd Hlen Hfill Hfree].
  pose proof (Hfill 0%nat x eq_refl) as Hslot.
  cbn [length] in Hb, Hhd.
  unfold try_pop. rewrite Htl, slot_index_u64.
  replace (t mod Capacity) with ((t + Z.of_nat 0) mod Capacity) by (f_equal; lia).
  change (Z.to_nat ((t + Z.of_nat 0) mod Capacity)) with (pos_index Capacity t 0).
  rewrite Hslot. cbn [slot_seq storage].
  rewrite u64_add_l. replace (t + Z.of_nat 0 + 1) with (t + 1) by lia.
  rewrite Z.eqb_refl. cbn [negb fst snd].
  split; [reflexivity|].
  split; cbn [head_ tail_ slots_].
  - lia.
  - lia.
  - reflexivity.
  - rewrite Hhd. f_equal. lia.
  - now rewrite length_insert.
  - intros i y Hy.
    assert (Hi : (i < length xs)%nat) by (eapply lookup_lt_Some; eauto).
    rewrite pos_index_shift.
    rewrite list_lookup_insert_ne.
    + rewrite (Hfill (S i) y Hy). do 3 f_equal. lia.
    + intros E. apply pos_index_inj in E; lia.
  - intros i Hi Hc. destruct (decide (Z.of_nat i = Capacity - 1)) as [E|Hne].
    + replace i with (Z.to_nat (Capacity - 1)) by lia.
      rewrite pos_index_wrap.
      rewrite list_lookup_insert_eq by (rewrite Hlen; apply pos_index_lt).
      rewrite u64_add_l. do 3 f_equal. lia.
    + rewrite pos_index_shift.
      rewrite list_lookup_insert_ne.
      * rewrite Hfree by (cbn [length]; lia). do 3 f_equal. lia.
      * intros E. apply pos_index_inj in E; lia.
Qed.

Lemma try_pop_empty (q : SPSCQueue T) t :
  ring_rep Capacity q t [] -> try_pop Capacity q = (None, q).
Proof.
  intros [Ht Hb Htl Hhd Hlen Hfill Hfree].
  pose proof (Hfree 0%nat (Nat.le_refl _) ltac:(lia)) as Hslot.
  unfold try_pop. rewrite Htl, slot_index_u64.
  replace (t mod Capacity) with ((t + Z.of_nat 0) mod Capacity) by (f_equal; lia).
  change (Z.to_nat ((t + Z.of_nat 0) mod Capacity)) with (pos_index Capacity t 0).
  rewrite Hslot. cbn [slot_seq]. rewrite u64_add_l.
  replace (t + Z.of_nat 0) with t by lia.
  destruct (Z.eqb_spec (u64 t) (u64 (t + 1))) as [E|_]; [|reflexivity].
  now apply u64_neq_succ in E.
Qed.

Lemma push_all_rep (ys : list T) : forall q t xs,
  ring_rep Capacity q t xs ->
  Z.of_nat (length xs) + Z.of_nat (length ys) <= Capacity ->
  fst (push_all Capacity ys q) = repeat true (length ys) /\
  ring_rep Capacity (snd (push_all Capacity ys q)) t (xs ++ ys).
Proof.
  induction ys as [|y ys IH]; intros q t xs Hrep Hroom.
  - cbn. now rewrite app_nil_r.
  - cbn [length] in Hroom.
    destruct (try_push_rep y q t xs Hrep) as [Hok Hrep']; [lia|].
    destruct (IH (snd (try_push Capacity y q)) t (xs ++ [y]) Hrep') as [IH1 IH2].
    { rewrite length_app. cbn. lia. }
    cbn [push_all fst snd length repeat]. rewrite Hok, IH1.
    split; [reflexivity|]. now rewrite <- app_assoc in IH2.
Qed.

Lemma pop_n_rep (xs : list T) : forall q t ys,
  ring_rep Capacity q t (xs ++ ys) ->
  fst (pop_n Capacity (length xs) q) = Some <$> xs /\
  ring_rep Capacity (snd (pop_n Capacity (length xs) q)) (t + Z.of_nat (length xs)) ys.
Proof.
  induction xs as [|x xs IH]; intros q t ys Hrep.
  - cbn. now rewrite Z.add_0_r.
  - destruct (try_pop_rep q t x (xs ++ ys) Hrep) as [Hx Hrep'].
    destruct (IH (snd (try_pop Capacity q)) (t + 1) ys Hrep') as [IH1 IH2].
    cbn [pop_n fst snd length]. rewrite Hx, IH1.
    split; [reflexivity|].
    replace (t + Z.of_nat (S (length xs))) with (t + 1 + Z.of_nat (length xs)) by lia.
    exact IH2.
Qed.

Lemma reachable_rep (q : SPSCQueue T) :
  2 <= Capacity -> reachable Capacity q -> exists t xs, ring_rep Capacity q t xs.
Proof.
  intros H2. induction 1 as [|x q Hq (t & xs & Hrep)|q Hq (t & xs & Hrep)].
  - exists 0, []. apply queue_new_rep.
  - destruct (Z.lt_ge_cases (Z.of_nat (length xs)) Capacity) as [Hlt|Hge].
    + exists t, (xs ++ [x]). now apply (try_push_rep x q t xs).
    + exists t, xs. rewrite (try_push_full x q t xs H2 Hrep); [exact Hrep|].
      pose proof (rep_bounded _ _ _ _ _ Hrep). lia.
  - destruct xs as [|x xs].
    + exists t, []. now rewrite (try_pop_empty q t Hrep).
    + exists (t + 1), xs. now apply (try_pop_rep q t x xs).
Qed.

(** With at least two slots: on every reachable Capacity ring [try_push] fails
    exactly when [Capacity] elements are held, and [try_pop] fails exactly
    when none is. *)
Lemma failure_is_full_or_empty (q : SPSCQueue T) :
  2 <= Capacity -> reachable Capacity q ->
  exists t xs, ring_rep Capacity q t xs /\
    (forall x, fst (try_push Capacity x q) = false <-> Z.of_nat (length xs) = Capacity) /\
    (fst (try_pop Capacity q) = None <-> xs = []).
Proof.
  intros H2 Hq. destruct (reachable_rep q H2 Hq) as (t & xs & Hrep).
  exists t, xs. split; [exact Hrep|]. split.
  - intros x. pose proof (rep_bounded _ _ _ _ _ Hrep) as Hb. split.
    + intros Hf. destruct (Z.lt_ge_cases (Z.of_nat (length xs)) Capacity) as [Hlt|Hge].
      * destruct (try_push_rep x q t xs Hrep Hlt) as [Hok _]. congruence.
      * lia.
    + intros Hfull. now rewrite (try_push_full x q t xs H2 Hrep Hfull).
  - split.
    + intros Hn. destruct xs as [|x xs]; [reflexivity|].
      destruct (try_pop_rep q t x xs Hrep) as [Hx _]. congruence.
    + intros ->. now rewrite (try_pop_empty q t Hrep).
Qed.

(** With at least two slots: [Capacity] pushes into a fresh ring succeed
    and the next one fails. *)
Lemma fresh_ring_fills (xs : list T) (y : T) :
  2 <= Capacity ->
  Z.of_nat (length xs) = Capacity ->
  fst (push_all Capacity (xs ++ [y]) (queue_new Capacity)) = repeat true (length xs) ++ [false].
Proof.
  intros H2 Hlen.
  destruct (push_all_rep xs (queue_new Capacity) 0 [] queue_new_rep) as [Hok Hrep].
  { cbn. lia. }
  cbn [app] in Hrep.
  assert (Happ : forall (ys zs : list T) q,
             fst (push_all Capacity (ys ++ zs) q)
             = fst (push_all Capacity ys q) ++ fst (push_all Capacity zs (snd (push_all Capacity ys q)))).
  { induction ys as [|y0 ys IH]; intros zs q; [reflexivity|].
    cbn [app push_all fst snd]. now rewrite IH. }
  rewrite Happ, Hok. f_equal.
  cbn [push_all fst]. now rewrite (try_push_full y _ 0 xs H2 Hrep Hlen).
Qed.

(** C4. For every sequence of [N <= Capacity] elements, the [try_push]
    calls on a fresh ring all succeed and [N] subsequent [try_pop] calls
    return exactly those elements, in the order they were pushed. *)
Theorem ring_fifo (xs : list T) :
  Z.of_nat (length xs) <= Capacity ->
  let pushed := push_all Capacity xs (queue_new Capacity) in
  fst pushed = repeat true (length xs) /\
  fst (pop_n Capacity (length xs) (snd pushed)) = Some <$> xs.
Proof.
  intros Hlen pushed.
  destruct (push_all_rep xs (queue_new Capacity) 0 [] queue_new_rep) as [Hok Hrep].
  { cbn. lia. }
  fold pushed in Hok, Hrep. split; [exact Hok|].
  cbn [app] in Hrep. rewrite <- (app_nil_r xs) in Hrep.
  now destruct (pop_n_rep xs (snd pushed) 0 [] Hrep) as [Hpop _].
Qed.

End SPSC_Properties.

Lemma ring_fifo_witness :
  fst (push_all 4 [10; 20; 30]%nat (queue_new 4)) = [true; true; true] /\
  fst (pop_n 4 3 (snd (push_all 4 [10; 20; 30]%nat (queue_new 4))))
  = [Some 10; Some 20; Some 30]%nat.
Proof.
  apply (ring_fifo 4 ltac:(lia) eq_refl [10; 20; 30]%nat).
  cbn. lia.
Defined.

Example capacity_four_fills :
  fst (push_all 4 [1; 2; 3; 4; 5]%nat (queue_new 4)) = [true; true; true; true; false].
Proof. reflexivity. Qed.

(** C5 fails on the ring with a single slot, which the [static_assert]
    admits (1 & 0 == 0). After one push the slot's sequence number is 1,
    which is also the next producer position: the second [try_push] on the
    full ring succeeds and overwrites the unread element, and the consumer,
    expecting sequence number 1 and finding 2, reports the ring empty. *)
Theorem single_slot_ring_overrun {T : Type} (a b : T) :
  0 < 1 < 2 ^ 64 /\ Z.land 1 (1 - 1) = 0 /\
  fst (push_all 1 [a; b] (queue_new 1)) = [true; true] /\
  fst (try_pop 1 (snd (push_all 1 [a; b] (queue_new 1)))) = None.
Proof. repeat split; reflexivity. Qed.

(** ** The ingest adapter *)

Section Parser_Properties.
Variable fp_contract : bool.
Variable strtod : list ascii -> float.
Variable indet_timestamp : Z.
Variable indet_side : Side.

(** *** Termination of the level loop *)

Lemma skip_to_length stop s : (length (skip_to stop s) <= length s)%nat.
Proof.
  induction s as [|c r IH]; cbn; [lia|].
  destruct (stop c); cbn; lia.
Qed.

Lemma levels_step_shorter s :
  match levels_step s with
  | JDone => True
  | JOuter rest => (length rest < length s)%nat
  | JPair _ _ rest => (length rest < length s)%nat
  end.
Proof.
  unfold levels_step.
  pose proof (skip_to_length (Ascii.eqb "[") s) as H0.
  destruct (skip_to (Ascii.eqb "[") s) as [|c0 s1]; [exact I|].
  cbn [length] in H0.
  destruct s1 as [|c s1']; [exact I|].
  destruct (Ascii.eqb c "["); [cbn [length] in *; lia|].
  cbv zeta.
  set (s1 := c :: s1') in *.
  set (s2 := skip_to (fun c => negb (is_blank c)) s1).
  set (stop1 := fun c => Ascii.eqb c "," || Ascii.eqb c "]").
  set (s3 := skip_to stop1 s2).
  set (s4 := match s3 with
             | c :: r => if Ascii.eqb c "," then r else s3
             | [] => []
             end).
  set (s5 := skip_to (fun c => negb (is_blank c)) s4).
  set (s6 := skip_to (Ascii.eqb "]") s5).
  assert (H2 : (length s2 <= length s1)%nat) by apply skip_to_length.
  assert (H3 : (length s3 <= length s2)%nat) by apply skip_to_length.
  assert (H4 : (length s4 <= length s3)%nat).
  { unfold s4. destruct s3 as [|c3 r3]; [cbn; lia|].
    destruct (Ascii.eqb c3 ","); cbn; lia. }
  assert (H5 : (length s5 <= length s4)%nat) by apply skip_to_length.
  assert (H6 : (length s6 <= length s5)%nat) by apply skip_to_length.
  assert (H7 : (length (tail s6) <= length s6)%nat) by (destruct s6; cbn; lia).
  lia.
Qed.

(** The result does not depend on the fuel once it exceeds the length of
    the text: the loop has exited by then. *)
Lemma levels_loop_fuel f1 : forall f2 s levels,
  (length s < f1)%nat -> (length s < f2)%nat ->
  levels_loop fp_contract strtod f1 s levels = levels_loop fp_contract strtod f2 s levels.
Proof.
  induction f1 as [|f1 IH]; intros f2 s levels H1 H2; [lia|].
  destruct f2 as [|f2]; [lia|]. cbn [levels_loop].
  pose proof (levels_step_shorter s) as Hs.
  destruct (levels_step s) as [|rest|pt st rest]; [reflexivity| |].
  - apply IH; lia.
  - destruct (from_f64 fp_contract (parse_double strtod pt)) as [p|]; [|reflexivity].
    cbn. apply IH; lia.
Qed.

(** *** Which lines contribute an update *)

Lemma parse_line_other c line after out :
  Ascii.eqb c "s" = false -> Ascii.eqb c "i" = false ->
  parse_line fp_contract strtod indet_timestamp indet_side (c :: line) after out = Some out.
Proof. intros Hs Hi. cbn. now rewrite Hs, Hi. Qed.

Lemma parse_snapshot_short line out :
  (length (snapshot_fields line false [] []) < 7)%nat ->
  parse_snapshot fp_contract strtod indet_side line out = Some out.
Proof.
  intros H. unfold parse_snapshot.
  apply Nat.ltb_lt in H. now rewrite H.
Qed.

(** [parse_incremental] has no field-count test: whenever it returns, it
    has appended one update. *)
Lemma parse_incremental_appends line after out r :
  parse_incremental fp_contract strtod indet_timestamp indet_side line after out = Some r ->
  exists u, r = out ++ [u].
Proof.
  unfold parse_incremental. intros H.
  destruct (incremental_fields fp_contract strtod _ _ _ _ _) as [u|]; [|discriminate].
  cbn in H. injection H as <-. now exists u.
Qed.

Lemma next_field_below field :
  field < INT_MAX -> next_field field = Some (field + 1).
Proof. intros H. unfold next_field. apply Z.ltb_lt in H. now rewrite H. Qed.

Lemma set_field_short field fs delim u :
  0 <= field < 4 ->
  exists u1, set_field fp_contract strtod field fs delim u = Some u1 /\
             type u1 = type u /\ level u1 = level u.
Proof.
  intros H.
  assert (Hc : field = 0 \/ field = 1 \/ field = 2 \/ field = 3) by lia.
  destruct Hc as [->|[->|[->| ->]]]; cbn; eauto.
Qed.

Lemma incremental_fields_short rest after : forall field fs u,
  0 <= field ->
  field + Z.of_nat (commas rest) < 4 ->
  exists u', incremental_fields fp_contract strtod rest after field fs u = Some u' /\
             type u' = type u /\ level u' = level u.
Proof.
  induction rest as [|c rest IH]; intros field fs u H0 Hn.
  - cbn [incremental_fields commas] in *.
    destruct (set_field_short field fs after u) as (u1 & -> & Ht & Hl); [lia|].
    rewrite next_field_below by (unfold INT_MAX; lia).
    exists u1. cbn. auto.
  - cbn [incremental_fields commas] in *.
    destruct (Ascii.eqb c ",").
    + destruct (set_field_short field fs (Some c) u) as (u1 & -> & Ht & Hl); [lia|].
      rewrite next_field_below by (unfold INT_MAX; lia). cbn.
      destruct (IH (field + 1) [] u1) as (u' & E & Ht' & Hl'); [lia|lia|].
      exists u'. rewrite E. split; [reflexivity|]. split; congruence.
    + apply IH; lia.
Qed.

(** An incremental line with at most four fields (no timestamp beyond
    field 3, no side, price or size) still contributes an update, with
    the default level ([Price(0)], [Qty(0.0)]). *)
Lemma parse_incremental_short line after out :
  (commas line < 4)%nat ->
  exists u, parse_incremental fp_contract strtod indet_timestamp indet_side line after out = Some (out ++ [u]) /\
            type u = Incremental /\
            level u = mkLevel (mkPrice 0) (mkQty 0).
Proof.
  intros H. unfold parse_incremental.
  destruct (incremental_fields_short line after 0 []
              (mkUpdate Incremental indet_timestamp indet_side
                        (mkLevel (mkPrice 0) (mkQty 0)) [] []))
    as (u & -> & Ht & Hl); [lia|lia|].
  exists u. cbn. auto.
Qed.

End Parser_Properties.

(** C8 fails for incremental lines. [parse_snapshot] returns early on fewer
    than 7 fields, but [parse_incremental] has no such test: the two-field
    line [i,x] contributes an update whose timestamp and side were never
    written and whose level is the default one. *)
Theorem short_incremental_line_is_ingested (contract : bool)
    (strtod : list ascii -> float) (ts0 : Z) (side0 : Side) :
  parse_file contract strtod ts0 side0
    (header_line ++ [LF] ++ list_ascii_of_string "i,x" ++ [LF])
  = Some [mkUpdate Incremental ts0 side0 (mkLevel (mkPrice 0) (mkQty 0)) [] []].
Proof. reflexivity. Qed.

Example short_snapshot_line_is_skipped (contract : bool)
    (strtod : list ascii -> float) (ts0 : Z) (side0 : Side) :
  parse_file contract strtod ts0 side0
    (header_line ++ [LF] ++ list_ascii_of_string "s,x,y,17" ++ [CR; LF]
                 ++ list_ascii_of_string "trade,1,2" ++ [LF])
  = Some [].
Proof. reflexivity. Qed.

(** * Part III: further properties of the code *)

(** ** The book: stored quantities *)

Lemma load_levels_no_zero ls : forall m,
  no_zero_entries m -> no_zero_entries (load_levels ls m).
Proof.
  induction ls as [|l ls IH]; intros m Hm; [exact Hm|].
  cbn [load_levels fold_left]. apply IH. unfold load_level.
  destruct (is_zero (qty l)) eqn:Hz; [exact Hm|].
  intros k v Hk. destruct (decide (raw (price l) = k)) as [<-|Hne].
  - rewrite lookup_insert_eq in Hk. injection Hk as <-. now destruct (qty l).
  - rewrite lookup_insert_ne in Hk by done. now apply (Hm k).
Qed.

Lemma no_zero_entries_empty : no_zero_entries ∅.
Proof. intros k v Hk. now rewrite lookup_empty in Hk. Qed.

Lemma no_zero_entries_delete m i : no_zero_entries m -> no_zero_entries (delete i m).
Proof.
  intros Hm k v Hk. destruct (decide (i = k)) as [->|Hne].
  - now rewrite lookup_delete_eq in Hk.
  - rewrite lookup_delete_ne in Hk by done. now apply (Hm k).
Qed.

Lemma apply_no_zero u ns b :
  no_zero_entries (bids_ b) -> no_zero_entries (asks_ b) ->
  no_zero_entries (bids_ (fst (apply u ns b))) /\
  no_zero_entries (asks_ (fst (apply u ns b))).
Proof.
  intros Hb Ha. unfold apply. cbn [fst bids_ asks_].
  destruct (type u).
  - cbn. split; apply load_levels_no_zero, no_zero_entries_empty.
  - unfold apply_incremental, refresh_best_bid, refresh_best_ask.
    destruct (side u); destruct (is_zero (qty (level u))) eqn:Hz;
      repeat (case_match; cbn [bids_ asks_]); split;
      try assumption; try (now apply no_zero_entries_delete).
    all: intros k v Hk;
      destruct (decide (raw (price (level u)) = k)) as [<-|Hne];
      [ rewrite lookup_insert_eq in Hk; injection Hk as <-;
        now destruct (qty (level u))
      | rewrite lookup_insert_ne in Hk by done; eauto ].
Qed.

(** X1. After any run from the empty book no entry of either map has a
    zero quantity: zero-quantity levels are skipped by snapshots and turn
    incrementals into deletions. *)
Theorem no_zero_quantity_stored (inputs : list (Update * Z)) :
  no_zero_entries (bids_ (fst (run book_new inputs))) /\
  no_zero_entries (asks_ (fst (run book_new inputs))).
Proof.
  assert (H : forall b,
             no_zero_entries (bids_ b) -> no_zero_entries (asks_ b) ->
             no_zero_entries (bids_ (fst (run b inputs))) /\
             no_zero_entries (asks_ (fst (run b inputs)))).
  { induction inputs as [|[u ns] rest IH]; intros b Hb Ha; [now split|].
    rewrite run_cons. cbn [fst].
    destruct (apply_no_zero u ns b Hb Ha) as [Hb' Ha']. now apply IH. }
  apply H; apply no_zero_entries_empty.
Qed.

(** ** The book: what a snapshot stores *)

Lemma load_levels_lookup k ls : forall m,
  load_levels ls m !! k = match last_live k ls with
                          | Some v => Some v
                          | None => m !! k
                          end.
Proof.
  unfold last_live.
  induction ls as [|l ls IH]; intros m; [reflexivity|].
  cbn [load_levels fold_left]. fold (load_levels ls (load_level m l)).
  rewrite IH. rewrite filter_cons. unfold load_level.
  destruct (decide (raw (price l) = k ∧ is_zero (qty l) = false)) as [[Hk Hz]|Hn].
  - rewrite !fmap_cons, last_cons, Hz.
    destruct (last _) as [v|]; [reflexivity|].
    subst k. now rewrite lookup_insert_eq.
  - destruct (last _) as [v|]; [reflexivity|].
    destruct (is_zero (qty l)) eqn:Hz; [reflexivity|].
    rewrite lookup_insert_ne; [reflexivity|]. intros E. apply Hn. now split.
Qed.

(** X2. After a snapshot each map holds, at every price, the quantity of
    the last level of the snapshot at that price whose quantity is not zero,
    and nothing at the other prices: what the book held before is gone, a
    later duplicate overwrites an earlier one, and a zero-quantity level is
    skipped (it removes nothing, not even an earlier duplicate). *)
Theorem snapshot_contents (b : Orderbook) (u : Update) (ns : Z) (k : Z) :
  type u = Snapshot ->
  bids_ (fst (apply u ns b)) !! k = last_live k (bids u) /\
  asks_ (fst (apply u ns b)) !! k = last_live k (asks u).
Proof.
  intros Ht. unfold apply. rewrite Ht. cbn.
  rewrite !load_levels_lookup, !lookup_empty.
  split; now destruct (last_live _ _).
Qed.

Lemma snapshot_contents_witness :
  bids_ (fst (apply sample_snapshot 5 book_A)) !! 9950 = Some 2%float /\
  asks_ (fst (apply sample_snapshot 5 book_A)) !! 9950 = None.
Proof.
  apply (snapshot_contents book_A sample_snapshot 5 9950). reflexivity.
Defined.

(** ** The book: what an incremental update changes *)

Lemma apply_incremental_sides s l b :
  side_map s (apply_incremental s l b)
  = (if is_zero (qty l) then delete (raw (price l)) (side_map s b)
     else <[raw (price l) := value (qty l)]> (side_map s b)) /\
  side_map (other_side s) (apply_incremental s l b) = side_map (other_side s) b /\
  side_cache (other_side s) (apply_incremental s l b) = side_cache (other_side s) b.
Proof.
  unfold apply_incremental, refresh_best_bid, refresh_best_ask.
  destruct s; destruct (is_zero (qty l)); cbn;
    repeat (case_match; cbn); repeat split; reflexivity.
Qed.

Lemma apply_incremental_view u ns b s :
  type u = Incremental ->
  side_map s (fst (apply u ns b)) = side_map s (apply_incremental (side u) (level u) b) /\
  side_cache s (fst (apply u ns b)) = side_cache s (apply_incremental (side u) (level u) b).
Proof.
  intros Ht. unfold apply. rewrite Ht. now destruct s.
Qed.

(** X3. An incremental update with a non-zero quantity stores that
    quantity at its price on its side, leaves every other price of that side
    as it was, and touches neither the map nor the cache of the other side. *)
Theorem incremental_insert_effect (b : Orderbook) (u : Update) (ns : Z) :
  type u = Incremental ->
  is_zero (qty (level u)) = false ->
  let b' := fst (apply u ns b) in
  let p := raw (price (level u)) in
  side_map (side u) b' !! p = Some (value (qty (level u))) /\
  (forall k, k <> p -> side_map (side u) b' !! k = side_map (side u) b !! k) /\
  side_map (other_side (side u)) b' = side_map (other_side (side u)) b /\
  side_cache (other_side (side u)) b' = side_cache (other_side (side u)) b.
Proof.
  intros Ht Hz b' p. unfold b'.
  destruct (apply_incremental_sides (side u) (level u) b) as (Hs & Ho & Hc).
  rewrite Hz in Hs.
  destruct (apply_incremental_view u ns b (side u) Ht) as [-> _].
  destruct (apply_incremental_view u ns b (other_side (side u)) Ht) as [-> ->].
  rewrite Hs, Ho, Hc. repeat split.
  - apply lookup_insert_eq.
  - intros k Hk. now rewrite lookup_insert_ne.
Qed.

Lemma incremental_insert_effect_witness :
  let b' := fst (apply (sample_incremental Bid 10025 5 1001) 6 book_A) in
  bids_ b' !! 10025 = Some 5%float /\
  (forall k, k <> 10025 -> bids_ b' !! k = bids_ book_A !! k) /\
  asks_ b' = asks_ book_A /\
  cached_best_ask_ b' = cached_best_ask_ book_A.
Proof.
  apply (incremental_insert_effect book_A (sample_incremental Bid 10025 5 1001) 6);
    reflexivity.
Defined.

(** X4. An incremental update with a zero quantity removes the entry at
    its price on its side (whether or not one was there), leaves every other
    price of that side as it was, and touches neither the map nor the cache
    of the other side. *)
Theorem incremental_delete_effect (b : Orderbook) (u : Update) (ns : Z) :
  type u = Incremental ->
  is_zero (qty (level u)) = true ->
  let b' := fst (apply u ns b) in
  let p := raw (price (level u)) in
  side_map (side u) b' !! p = None /\
  (forall k, k <> p -> side_map (side u) b' !! k = side_map (side u) b !! k) /\
  side_map (other_side (side u)) b' = side_map (other_side (side u)) b /\
  side_cache (other_side (side u)) b' = side_cache (other_side (side u)) b.
Proof.
  intros Ht Hz b' p. unfold b'.
  destruct (apply_incremental_sides (side u) (level u) b) as (Hs & Ho & Hc).
  rewrite Hz in Hs.
  destruct (apply_incremental_view u ns b (side u) Ht) as [-> _].
  destruct (apply_incremental_view u ns b (other_side (side u)) Ht) as [-> ->].
  rewrite Hs, Ho, Hc. repeat split.
  - apply lookup_delete_eq.
  - intros k Hk. now rewrite lookup_delete_ne.
Qed.

Lemma incremental_delete_effect_witness :
  let b' := fst (apply (sample_incremental Ask 10050 0 1002) 6 book_A) in
  asks_ b' !! 10050 = None /\
  (forall k, k <> 10050 -> asks_ b' !! k = asks_ book_A !! k) /\
  bids_ b' = bids_ book_A /\
  cached_best_bid_ b' = cached_best_bid_ book_A.
Proof.
  apply (incremental_delete_effect book_A (sample_incremental Ask 10050 0 1002) 6);
    reflexivity.
Defined.

(** X5. [bid_depth] and [ask_depth] after an incremental update: the depth
    of the update's side grows by one when a new price is inserted, shrinks
    by one when a present price is deleted and is unchanged otherwise; the
    depth of the other side is unchanged. *)
Theorem incremental_depth (b : Orderbook) (u : Update) (ns : Z) :
  type u = Incremental ->
  let b' := fst (apply u ns b) in
  let present := side_map (side u) b !! raw (price (level u)) in
  side_depth (side u) b'
  = (if is_zero (qty (level u))
     then match present with
          | Some _ => pred (side_depth (side u) b)
          | None => side_depth (side u) b
          end
     else match present with
          | Some _ => side_depth (side u) b
          | None => S (side_depth (side u) b)
          end) /\
  side_depth (other_side (side u)) b' = side_depth (other_side (side u)) b.
Proof.
  intros Ht b' present. unfold b'.
  assert (Hd : forall s x, side_depth s x = size (side_map s x)) by (now intros []).
  rewrite !Hd.
  destruct (apply_incremental_sides (side u) (level u) b) as (Hs & Ho & _).
  destruct (apply_incremental_view u ns b (side u) Ht) as [-> _].
  destruct (apply_incremental_view u ns b (other_side (side u)) Ht) as [-> _].
  rewrite Hs, Ho. split; [|reflexivity].
  unfold present.
  destruct (is_zero (qty (level u))).
  - rewrite map_size_delete. now destruct (_ !! _).
  - rewrite map_size_insert. now destruct (_ !! _).
Qed.

Lemma incremental_depth_witness :
  bid_depth (fst (apply (sample_incremental Bid 10025 5 1001) 6 book_A)) = 3%nat /\
  ask_depth (fst (apply (sample_incremental Bid 10025 5 1001) 6 book_A)) = 2%nat.
Proof.
  apply (incremental_depth book_A (sample_incremental Bid 10025 5 1001) 6).
  reflexivity.
Defined.

(** ** The book: the caches are determined by the maps *)

Lemma entry_of_level_inj (c1 c2 : option Level) :
  entry_of_level <$> c1 = entry_of_level <$> c2 -> c1 = c2.
Proof.
  intros E. apply (f_equal (fmap level_of_entry)) in E.
  rewrite <- !option_fmap_compose in E.
  rewrite !(option_fmap_ext (level_of_entry ∘ entry_of_level) id) in E
    by (intros l; apply level_of_entry_of_level).
  now rewrite !option_fmap_id in E.
Qed.

Lemma consistent_caches_unique b1 b2 :
  cache_consistent b1 -> cache_consistent b2 ->
  bids_ b1 = bids_ b2 -> asks_ b1 = asks_ b2 ->
  cached_best_bid_ b1 = cached_best_bid_ b2 /\
  cached_best_ask_ b1 = cached_best_ask_ b2.
Proof.
  intros [Hb1 Ha1] [Hb2 Ha2] Eb Ea.
  unfold bid_cache_ok, ask_cache_ok in *. rewrite Eb in Hb1. rewrite Ea in Ha1.
  split; apply entry_of_level_inj.
  - eapply greatest_entry_unique; eauto.
  - eapply least_entry_unique; eauto.
Qed.

(** X6. On a cache-consistent book, inserting a level at a price absent
    from its side and then deleting that price restores both maps and both
    caches: the two updates only advance the sequence counter. *)
Theorem insert_then_delete_restores (b : Orderbook) (ins del : Update) (n1 n2 : Z) :
  cache_consistent b ->
  type ins = Incremental -> type del = Incremental ->
  side del = side ins ->
  raw (price (level del)) = raw (price (level ins)) ->
  is_zero (qty (level ins)) = false ->
  is_zero (qty (level del)) = true ->
  side_map (side ins) b !! raw (price (level ins)) = None ->
  let b' := fst (apply del n2 (fst (apply ins n1 b))) in
  bids_ b' = bids_ b /\ asks_ b' = asks_ b /\
  cached_best_bid_ b' = cached_best_bid_ b /\
  cached_best_ask_ b' = cached_best_ask_ b.
Proof.
  intros Hc Hti Htd Hs Hp Hzi Hzd Habs b'.
  assert (Hc' : cache_consistent b') by (unfold b'; now do 2 apply apply_consistent).
  assert (Hmaps : forall s, side_map s b' = side_map s b).
  { intros s. unfold b'.
    set (b1 := fst (apply ins n1 b)).
    pose proof (apply_incremental_sides (side del) (level del) b1) as (D1 & D2 & _).
    pose proof (apply_incremental_sides (side ins) (level ins) b) as (I1 & I2 & _).
    rewrite Hzd in D1. rewrite Hzi in I1.
    destruct (apply_incremental_view del n2 b1 s Htd) as [-> _].
    assert (V : forall s', side_map s' b1
                           = side_map s' (apply_incremental (side ins) (level ins) b)).
    { intros s'. unfold b1. now destruct (apply_incremental_view ins n1 b s' Hti). }
    rewrite Hs, Hp in *.
    assert (Hcase : s = side ins \/ s = other_side (side ins))
      by (destruct s, (side ins); auto).
    destruct Hcase as [->| ->].
    - rewrite D1, V, I1. now apply delete_insert_id.
    - now rewrite D2, V, I2. }
  pose proof (Hmaps Bid) as Hb. pose proof (Hmaps Ask) as Ha. cbn in Hb, Ha.
  destruct (consistent_caches_unique b' b Hc' Hc Hb Ha) as [E1 E2].
  auto.
Qed.

Lemma insert_then_delete_restores_witness :
  let b' := fst (apply (sample_incremental Bid 10025 0 1002) 7
                   (fst (apply (sample_incremental Bid 10025 5 1001) 6 book_A))) in
  bids_ b' = bids_ book_A /\ asks_ b' = asks_ book_A /\
  cached_best_bid_ b' = cached_best_bid_ book_A /\
  cached_best_ask_ b' = cached_best_ask_ book_A.
Proof.
  apply (insert_then_delete_restores book_A
           (sample_incremental Bid 10025 5 1001)
           (sample_incremental Bid 10025 0 1002) 6 7).
  - exact book_A_consistent.
  - reflexivity.
  - reflexivity.
  - reflexivity.
  - reflexivity.
  - vm_compute. reflexivity.
  - vm_compute. reflexivity.
  - vm_compute. reflexivity.
Defined.

Lemma apply_incremental_bid_delete l b :
  is_zero (qty l) = true ->
  apply_incremental Bid l b
  = mkBook (delete (raw (price l)) (bids_ b)) (asks_ b)
           (if cache_at (cached_best_bid_ b) (price l)
            then level_of_entry <$> map_rbegin (delete (raw (price l)) (bids_ b))
            else cached_best_bid_ b)
           (cached_best_ask_ b) (seq_ b).
Proof.
  intros Hz. unfold apply_incremental. rewrite Hz. cbn.
  now destruct (cache_at _ _).
Qed.

Lemma apply_incremental_ask_delete l b :
  is_zero (qty l) = true ->
  apply_incremental Ask l b
  = mkBook (bids_ b) (delete (raw (price l)) (asks_ b))
           (cached_best_bid_ b)
           (if cache_at (cached_best_ask_ b) (price l)
            then level_of_entry <$> map_begin (delete (raw (price l)) (asks_ b))
            else cached_best_ask_ b)
           (seq_ b).
Proof.
  intros Hz. unfold apply_incremental. rewrite Hz. cbn.
  now destruct (cache_at _ _).
Qed.

Lemma apply_incremental_bid_insert l b :
  is_zero (qty l) = false ->
  apply_incremental Bid l b
  = mkBook (<[raw (price l) := value (qty l)]> (bids_ b)) (asks_ b)
           (match cached_best_bid_ b with
            | None => Some l
            | Some c0 => if price_ge (price l) (price c0) then Some l else Some c0
            end)
           (cached_best_ask_ b) (seq_ b).
Proof. intros Hz. unfold apply_incremental. now rewrite Hz. Qed.

Lemma apply_incremental_ask_insert l b :
  is_zero (qty l) = false ->
  apply_incremental Ask l b
  = mkBook (bids_ b) (<[raw (price l) := value (qty l)]> (asks_ b))
           (cached_best_bid_ b)
           (match cached_best_ask_ b with
            | None => Some l
            | Some c0 => if price_le (price l) (price c0) then Some l else Some c0
            end)
           (seq_ b).
Proof. intros Hz. unfold apply_incremental. now rewrite Hz. Qed.

Lemma cache_at_rbegin_delete p m :
  cache_at (level_of_entry <$> map_rbegin (delete (raw p) m)) p = false.
Proof.
  pose proof (map_rbegin_greatest (delete (raw p) m)) as Hg.
  destruct (map_rbegin (delete (raw p) m)) as [[k v]|]; [|reflexivity].
  destruct Hg as [Hk _]. cbn. unfold price_eq. cbn.
  destruct (Z.eqb_spec k (raw p)) as [->|_]; [|reflexivity].
  now rewrite lookup_delete_eq in Hk.
Qed.

Lemma cache_at_begin_delete p m :
  cache_at (level_of_entry <$> map_begin (delete (raw p) m)) p = false.
Proof.
  pose proof (map_begin_least (delete (raw p) m)) as Hg.
  destruct (map_begin (delete (raw p) m)) as [[k v]|]; [|reflexivity].
  destruct Hg as [Hk _]. cbn. unfold price_eq. cbn.
  destruct (Z.eqb_spec k (raw p)) as [->|_]; [|reflexivity].
  now rewrite lookup_delete_eq in Hk.
Qed.

Lemma apply_incremental_twice s l b :
  let b1 := apply_incremental s l b in
  let b2 := apply_incremental s l b1 in
  bids_ b2 = bids_ b1 /\ asks_ b2 = asks_ b1 /\
  cached_best_bid_ b2 = cached_best_bid_ b1 /\
  cached_best_ask_ b2 = cached_best_ask_ b1.
Proof.
  intros b1 b2. unfold b2.
  destruct s; destruct (is_zero (qty l)) eqn:Hz.
  - rewrite (apply_incremental_bid_delete l b1 Hz).
    unfold b1. rewrite (apply_incremental_bid_delete l b Hz).
    cbn [bids_ asks_ cached_best_bid_ cached_best_ask_].
    rewrite delete_delete_eq. repeat split.
    destruct (cache_at (cached_best_bid_ b) (price l)) eqn:Hc.
    + now rewrite cache_at_rbegin_delete.
    + now rewrite Hc.
  - rewrite (apply_incremental_bid_insert l b1 Hz).
    unfold b1. rewrite (apply_incremental_bid_insert l b Hz).
    cbn [bids_ asks_ cached_best_bid_ cached_best_ask_].
    rewrite insert_insert_eq. repeat split.
    unfold price_ge. destruct (cached_best_bid_ b) as [c0|].
    + destruct (Z.geb_spec (raw (price l)) (raw (price c0))) as [Hge|Hlt].
      * now rewrite Z.geb_leb, Z.leb_refl.
      * destruct (Z.geb_spec (raw (price l)) (raw (price c0))); [lia|reflexivity].
    + now rewrite Z.geb_leb, Z.leb_refl.
  - rewrite (apply_incremental_ask_delete l b1 Hz).
    unfold b1. rewrite (apply_incremental_ask_delete l b Hz).
    cbn [bids_ asks_ cached_best_bid_ cached_best_ask_].
    rewrite delete_delete_eq. repeat split.
    destruct (cache_at (cached_best_ask_ b) (price l)) eqn:Hc.
    + now rewrite cache_at_begin_delete.
    + now rewrite Hc.
  - rewrite (apply_incremental_ask_insert l b1 Hz).
    unfold b1. rewrite (apply_incremental_ask_insert l b Hz).
    cbn [bids_ asks_ cached_best_bid_ cached_best_ask_].
    rewrite insert_insert_eq. repeat split.
    unfold price_le. destruct (cached_best_ask_ b) as [c0|].
    + destruct (Z.leb_spec (raw (price l)) (raw (price c0))) as [Hle|Hgt].
      * now rewrite Z.leb_refl.
      * destruct (Z.leb_spec (raw (price l)) (raw (price c0))); [lia|reflexivity].
    + now rewrite Z.leb_refl.
Qed.

Lemma apply_incremental_seq_irrelevant s l b z :
  let b' := apply_incremental s l b in
  apply_incremental s l
    (mkBook (bids_ b) (asks_ b) (cached_best_bid_ b) (cached_best_ask_ b) z)
  = mkBook (bids_ b') (asks_ b') (cached_best_bid_ b') (cached_best_ask_ b') z.
Proof.
  intros b'. unfold b'.
  destruct s; destruct (is_zero (qty l)) eqn:Hz.
  - now rewrite !(apply_incremental_bid_delete _ _ Hz).
  - now rewrite !(apply_incremental_bid_insert _ _ Hz).
  - now rewrite !(apply_incremental_ask_delete _ _ Hz).
  - now rewrite !(apply_incremental_ask_insert _ _ Hz).
Qed.

(** X7. Applying the same incremental update twice in a row leaves the maps
    and the caches as they were after the first application, on every book
    (cache-consistent or not). *)
Theorem incremental_idempotent (b : Orderbook) (u : Update) (n1 n2 : Z) :
  type u = Incremental ->
  let b1 := fst (apply u n1 b) in
  let b2 := fst (apply u n2 b1) in
  bids_ b2 = bids_ b1 /\ asks_ b2 = asks_ b1 /\
  cached_best_bid_ b2 = cached_best_bid_ b1 /\
  cached_best_ask_ b2 = cached_best_ask_ b1.
Proof.
  intros Ht b1 b2. unfold b2, b1, apply. rewrite Ht.
  cbn [fst bids_ asks_ cached_best_bid_ cached_best_ask_].
  rewrite apply_incremental_seq_irrelevant.
  cbn [bids_ asks_ cached_best_bid_ cached_best_ask_].
  apply apply_incremental_twice.
Qed.

Lemma incremental_idempotent_witness :
  let b1 := fst (apply (sample_incremental Ask 10050 0 1002) 6 book_A) in
  let b2 := fst (apply (sample_incremental Ask 10050 0 1002) 7 b1) in
  bids_ b2 = bids_ b1 /\ asks_ b2 = asks_ b1 /\
  cached_best_bid_ b2 = cached_best_bid_ b1 /\
  cached_best_ask_ b2 = cached_best_ask_ b1.
Proof.
  apply (incremental_idempotent book_A (sample_incremental Ask 10050 0 1002) 6 7).
  reflexivity.
Defined.

(** ** The book: incrementals against a snapshot *)

Lemma run_app xs : forall b ys,
  fst (run b (xs ++ ys)) = fst (run (fst (run b xs)) ys).
Proof.
  induction xs as [|[u ns] xs IH]; intros b ys; [reflexivity|].
  cbn [app]. rewrite !run_cons. cbn [fst]. apply IH.
Qed.

Lemma run_incrementals s ls : forall b,
  Forall (fun l => is_zero (qty l) = false) ls ->
  side_map s (fst (run b (as_incrementals s ls))) = load_levels ls (side_map s b) /\
  side_map (other_side s) (fst (run b (as_incrementals s ls)))
  = side_map (other_side s) b.
Proof.
  induction ls as [|l ls IH]; intros b Hnz; [now split|].
  inversion Hnz as [|? ? Hl Hls]; subst.
  cbn [as_incrementals fmap list_fmap]. rewrite run_cons. cbn [fst].
  set (u := mkUpdate Incremental 0 s l [] []).
  destruct (IH (fst (apply u 0 b)) Hls) as [IH1 IH2].
  fold (as_incrementals s ls). rewrite IH1, IH2.
  destruct (apply_incremental_view u 0 b s eq_refl) as [-> _].
  destruct (apply_incremental_view u 0 b (other_side s) eq_refl) as [-> _].
  destruct (apply_incremental_sides s l b) as (Hs & Ho & _).
  cbn [u side level]. rewrite Hs, Ho, Hl. split; [|reflexivity].
  cbn [load_levels fold_left]. unfold load_level at 2. now rewrite Hl.
Qed.

(** X8. Feeding the levels of a snapshot one by one as incremental updates
    into an empty book (bids first, then asks) builds the same maps and the
    same caches as applying the snapshot, provided no level has a zero
    quantity. *)
Theorem incrementals_build_snapshot (snap : Update) (ns : Z) :
  type snap = Snapshot ->
  Forall (fun l => is_zero (qty l) = false) (bids snap) ->
  Forall (fun l => is_zero (qty l) = false) (asks snap) ->
  let b1 := fst (run book_new (as_incrementals Bid (bids snap)
                               ++ as_incrementals Ask (asks snap))) in
  let b2 := fst (apply snap ns book_new) in
  bids_ b1 = bids_ b2 /\ asks_ b1 = asks_ b2 /\
  cached_best_bid_ b1 = cached_best_bid_ b2 /\
  cached_best_ask_ b1 = cached_best_ask_ b2.
Proof.
  intros Ht Hb Ha b1 b2.
  assert (Eb : bids_ b1 = bids_ b2 /\ asks_ b1 = asks_ b2).
  { unfold b1, b2. rewrite run_app.
    set (bm := fst (run book_new (as_incrementals Bid (bids snap)))).
    destruct (run_incrementals Bid (bids snap) book_new Hb) as [B1 B2].
    destruct (run_incrementals Ask (asks snap) bm Ha) as [A1 A2].
    fold bm in B1, B2. cbn [side_map other_side] in *.
    rewrite A1, A2, B1, B2. unfold apply. rewrite Ht. now cbn. }
  destruct Eb as [Eb Ea].
  assert (C1 : cache_consistent b1) by apply run_consistent, book_new_consistent.
  assert (C2 : cache_consistent b2) by apply apply_consistent, book_new_consistent.
  destruct (consistent_caches_unique b1 b2 C1 C2 Eb Ea). auto.
Qed.

Lemma incrementals_build_snapshot_witness :
  let b1 := fst (run book_new (as_incrementals Bid (bids sample_snapshot)
                               ++ as_incrementals Ask (asks sample_snapshot))) in
  bids_ b1 = bids_ book_A /\ asks_ b1 = asks_ book_A /\
  cached_best_bid_ b1 = cached_best_bid_ book_A /\
  cached_best_ask_ b1 = cached_best_ask_ book_A.
Proof.
  apply (incrementals_build_snapshot sample_snapshot 5).
  - reflexivity.
  - repeat constructor.
  - repeat constructor.
Defined.

(** ** The ring: every interleaving of pushes and pops *)

Section SPSC_More.
Context {T : Type}.
Variable Capacity : Z.
Hypothesis Capacity_range : 0 < Capacity < 2 ^ 64.
Hypothesis Capacity_pow2 : Z.land Capacity (Capacity - 1) = 0.

Lemma ring_run_rep (ops : list (ring_op T)) : forall q t xs,
  2 <= Capacity ->
  ring_rep Capacity q t xs ->
  ring_run Capacity ops q = fifo_run Capacity ops xs.
Proof.
  induction ops as [|op ops IH]; intros q t xs H2 Hrep; [reflexivity|].
  cbn [ring_run fifo_run]. destruct op as [x|]; cbn [ring_step fifo_step].
  - destruct (Z.ltb_spec (Z.of_nat (length xs)) Capacity) as [Hlt|Hge].
    + destruct (try_push_rep Capacity Capacity_range Capacity_pow2 x q t xs Hrep Hlt)
        as [Hok Hrep'].
      rewrite Hok. cbn [fst snd]. f_equal. now apply (IH _ t).
    + pose proof (rep_bounded _ _ _ _ _ Hrep) as Hb.
      rewrite (try_push_full Capacity Capacity_range Capacity_pow2 x q t xs H2 Hrep)
        by lia.
      cbn [fst snd]. f_equal. now apply (IH _ t).
  - destruct xs as [|x xs].
    + rewrite (try_pop_empty Capacity Capacity_range Capacity_pow2 q t Hrep).
      cbn [fst snd]. f_equal. now apply (IH _ t).
    + destruct (try_pop_rep Capacity Capacity_range Capacity_pow2 q t x xs Hrep)
        as [Hx Hrep'].
      rewrite Hx. cbn [fst snd]. f_equal. now apply (IH _ (t + 1)).
Qed.

(** X9. With at least two slots, the ring behaves as a FIFO bounded by
    [Capacity] under every sequence of [try_push] and [try_pop] calls: each
    call returns what the bounded list queue returns. This holds from a
    fresh ring, and from any ring holding [xs] whose oldest element was
    pushed at position [t], however large [t] is (the 64-bit position
    counters may have wrapped). *)
Theorem ring_refines_fifo (ops : list (ring_op T)) :
  2 <= Capacity ->
  ring_run Capacity ops (queue_new Capacity) = fifo_run Capacity ops [] /\
  forall q t xs, ring_rep Capacity q t xs ->
                 ring_run Capacity ops q = fifo_run Capacity ops xs.
Proof.
  intros H2. split.
  - apply (ring_run_rep ops _ 0); [exact H2|].
    apply queue_new_rep; assumption.
  - intros q t xs Hrep. now apply (ring_run_rep ops q t).
Qed.

(** X10. The masked slot index is within the slot array for every
    position, and positions that differ by [Capacity] share a slot. *)
Theorem slot_index_in_bounds (pos : Z) :
  0 <= pos ->
  Z.of_nat (slot_index Capacity pos) < Capacity /\
  slot_index Capacity (pos + Capacity) = slot_index Capacity pos.
Proof.
  intros Hpos.
  assert (HM : Capacity - 1 = Z.ones (Z.log2 Capacity)).
  { rewrite Z.ones_equiv.
    pose proof (Capacity_is_pow2 Capacity Capacity_range Capacity_pow2). lia. }
  assert (Hidx : forall p, slot_index Capacity p = Z.to_nat (p mod Capacity)).
  { intros p. unfold slot_index, MASK.
    rewrite HM, Z.land_ones by apply Z.log2_nonneg.
    now rewrite <- (Capacity_is_pow2 Capacity Capacity_range Capacity_pow2). }
  rewrite !Hidx. split.
  - pose proof (Z.mod_pos_bound pos Capacity ltac:(lia)). lia.
  - f_equal. replace (pos + Capacity) with (pos + 1 * Capacity) by lia.
    apply Z.mod_add. lia.
Qed.

(** *** The blocking calls *)

Lemma push_rep fuel (x : T) q t xs :
  ring_rep Capacity q t xs ->
  Z.of_nat (length xs) < Capacity ->
  push Capacity (S fuel) x q = Some (snd (try_push Capacity x q)).
Proof.
  intros Hrep Hroom.
  destruct (try_push_rep Capacity Capacity_range Capacity_pow2 x q t xs Hrep Hroom)
    as [Hok _].
  unfold try_push in *. cbn [push].
  destruct (slots_ q !! slot_index Capacity (head_ q)) as [slot|]; [|discriminate].
  destruct (negb (slot_seq slot =? head_ q)); [discriminate|reflexivity].
Qed.

Lemma push_full fuel (x : T) q t xs :
  2 <= Capacity ->
  ring_rep Capacity q t xs ->
  Z.of_nat (length xs) = Capacity ->
  push Capacity fuel x q = None.
Proof.
  intros H2 Hrep Hfull.
  pose proof (try_push_full Capacity Capacity_range Capacity_pow2 x q t xs
                H2 Hrep Hfull) as Hf.
  induction fuel as [|fuel IH]; [reflexivity|].
  cbn [push]. unfold try_push in Hf.
  destruct (slots_ q !! slot_index Capacity (head_ q)) as [slot|]; [|reflexivity].
  destruct (negb (slot_seq slot =? head_ q)); [exact IH|discriminate].
Qed.

(** X11. The blocking [push], with no consumer running: when the ring has
    room it returns at once with the effect of a successful [try_push]; when
    the ring is full (and has at least two slots) it is still spinning
    after any number of turns and changes nothing. *)
Theorem blocking_push_spec (x : T) (q : SPSCQueue T) (t : Z) (xs : list T) :
  2 <= Capacity ->
  ring_rep Capacity q t xs ->
  (Z.of_nat (length xs) < Capacity ->
     forall fuel, exists q',
       push Capacity (S fuel) x q = Some q' /\ ring_rep Capacity q' t (xs ++ [x])) /\
  (Z.of_nat (length xs) = Capacity ->
     forall fuel, push Capacity fuel x q = None).
Proof.
  intros H2 Hrep. split.
  - intros Hroom fuel. exists (snd (try_push Capacity x q)). split.
    + now apply (push_rep fuel x q t xs).
    + now apply (try_push_rep Capacity Capacity_range Capacity_pow2 x q t xs).
  - intros Hfull fuel. now apply (push_full fuel x q t xs).
Qed.

Lemma dequeue_rep q t (x : T) xs :
  ring_rep Capacity q t (x :: xs) ->
  dequeue Capacity q = PopItem x (snd (try_pop Capacity q)) /\
  forall fuel closed, pop Capacity (S fuel) closed q = dequeue Capacity q.
Proof.
  intros Hrep.
  destruct (try_pop_rep Capacity Capacity_range Capacity_pow2 q t x xs Hrep)
    as [Hx _].
  cbn [pop]. unfold try_pop, dequeue in *.
  destruct (slots_ q !! slot_index Capacity (tail_ q)) as [[sq st]|]; [|discriminate].
  cbn [slot_seq storage] in *.
  destruct (sq =? u64 (tail_ q + 1)); cbn [negb] in *; [|discriminate].
  destruct st as [item|]; [|discriminate].
  cbn [fst snd] in *. injection Hx as ->. split; reflexivity.
Qed.

Lemma pop_empty_rep q t :
  ring_rep Capacity q t (@nil T) ->
  (forall fuel, pop Capacity (S fuel) true q = PopClosed) /\
  (forall fuel, pop Capacity fuel false q = PopSpinning).
Proof.
  intros Hrep.
  pose proof (try_pop_empty Capacity Capacity_range Capacity_pow2 q t Hrep) as He.
  pose proof (rep_free _ _ _ _ _ Hrep 0%nat (Nat.le_refl _) ltac:(lia)) as Hslot.
  assert (Hidx : slot_index Capacity (tail_ q) = pos_index Capacity t 0).
  { rewrite (rep_tail _ _ _ _ _ Hrep).
    rewrite (slot_index_u64 Capacity Capacity_range Capacity_pow2).
    unfold pos_index. do 2 f_equal. lia. }
  assert (Hne : (u64 (t + Z.of_nat 0) =? u64 (tail_ q + 1)) = false).
  { rewrite (rep_tail _ _ _ _ _ Hrep), u64_add_l.
    replace (t + Z.of_nat 0) with t by lia.
    apply Z.eqb_neq, u64_neq_succ. }
  split.
  - intros fuel. cbn [pop]. rewrite Hidx, Hslot. cbn [slot_seq]. now rewrite Hne.
  - induction fuel as [|fuel IH]; [reflexivity|].
    cbn [pop]. rewrite Hidx, Hslot. cbn [slot_seq]. now rewrite Hne.
Qed.

(** X12. The blocking [pop], with no producer running: on a non-empty ring
    it returns the oldest element at once, whatever the close flag; on an
    empty ring it returns [nullopt] when the flag is set, and is still
    spinning after any number of turns when it is not. *)
Theorem blocking_pop_spec (q : SPSCQueue T) (t : Z) (xs : list T) :
  ring_rep Capacity q t xs ->
  match xs with
  | x :: rest =>
      forall fuel closed, exists q',
        pop Capacity (S fuel) closed q = PopItem x q' /\
        ring_rep Capacity q' (t + 1) rest
  | [] =>
      (forall fuel, pop Capacity (S fuel) true q = PopClosed) /\
      (forall fuel, pop Capacity fuel false q = PopSpinning)
  end.
Proof.
  intros Hrep. destruct xs as [|x rest].
  - now apply (pop_empty_rep q t).
  - intros fuel closed. exists (snd (try_pop Capacity q)).
    destruct (dequeue_rep q t x rest Hrep) as [Hd Hp].
    rewrite Hp, Hd. split; [reflexivity|].
    now apply (try_pop_rep Capacity Capacity_range Capacity_pow2 q t x rest).
Qed.

End SPSC_More.

Lemma ring_refines_fifo_witness :
  ring_run 4 [OpPush 1; OpPush 2; OpPop; OpPush 3; OpPush 4; OpPush 5; OpPush 6;
              OpPop; OpPop; OpPop; OpPop; OpPop]%nat (queue_new 4)
  = [ResPush true; ResPush true; ResPop (Some 1); ResPush true; ResPush true;
     ResPush true; ResPush false; ResPop (Some 2); ResPop (Some 3);
     ResPop (Some 4); ResPop (Some 5); ResPop None]%nat.
Proof.
  refine (proj1 (ring_refines_fifo 4 _ eq_refl
            [OpPush 1; OpPush 2; OpPop; OpPush 3; OpPush 4; OpPush 5; OpPush 6;
             OpPop; OpPop; OpPop; OpPop; OpPop]%nat _)); lia.
Defined.

Lemma slot_index_in_bounds_witness :
  Z.of_nat (slot_index 4096 5000) < 4096 /\
  slot_index 4096 (5000 + 4096) = slot_index 4096 5000.
Proof.
  apply (slot_index_in_bounds 4096 ltac:(lia) eq_refl 5000). lia.
Defined.

Lemma blocking_push_spec_witness :
  (Z.of_nat (length (@nil nat)) < 4 ->
     forall fuel, exists q',
       push 4 (S fuel) 7%nat (queue_new 4) = Some q' /\ ring_rep 4 q' 0 ([] ++ [7%nat])) /\
  (Z.of_nat (length (@nil nat)) = 4 ->
     forall fuel, push 4 fuel 7%nat (queue_new 4) = None).
Proof.
  apply (blocking_push_spec 4 ltac:(lia) eq_refl 7%nat (queue_new 4) 0 []).
  - lia.
  - apply queue_new_rep; first [lia | reflexivity].
Defined.

Lemma blocking_pop_spec_witness :
  (forall fuel, pop 4 (S fuel) true (@queue_new nat 4) = PopClosed) /\
  (forall fuel, pop 4 fuel false (@queue_new nat 4) = PopSpinning).
Proof.
  apply (blocking_pop_spec 4 ltac:(lia) eq_refl (queue_new 4) 0 []).
  apply queue_new_rep; first [lia | reflexivity].
Defined.

(** ** Latency statistics: what [record] accumulates *)

Lemma record_all_fields lats : forall s,
  0 <= count s < 2 ^ 64 -> 0 <= total_latency_ns s < 2 ^ 64 ->
  latencies (record_all lats s) = latencies s ++ lats /\
  count (record_all lats s) = u64 (count s + Z.of_nat (length lats)) /\
  total_latency_ns (record_all lats s) = u64 (total_latency_ns s + sum_of lats) /\
  min_latency_ns (record_all lats s) = fold_left Z.min lats (min_latency_ns s) /\
  max_latency_ns (record_all lats s) = fold_left Z.max lats (max_latency_ns s).
Proof.
  induction lats as [|x lats IH]; intros s Hc Ht.
  - cbn. rewrite app_nil_r, !Z.add_0_r, !u64_small by assumption. auto.
  - cbn [record_all fold_left]. fold (record_all lats (record x s)).
    destruct (IH (record x s)) as (H1 & H2 & H3 & H4 & H5);
      [cbn; apply u64_range | cbn; apply u64_range |].
    rewrite H1, H2, H3, H4, H5. cbn [record latencies count total_latency_ns
                                      min_latency_ns max_latency_ns length sum_of
                                      fold_right].
    rewrite <- app_assoc, !u64_add_l. repeat split.
    + f_equal. lia.
    + fold (sum_of lats). f_equal. lia.
    + f_equal. destruct (Z.ltb_spec x (min_latency_ns s)); lia.
    + f_equal. rewrite Z.gtb_ltb.
      destruct (Z.ltb_spec (max_latency_ns s) x); lia.
Qed.

Lemma fold_min_le lats : forall a x,
  x = a \/ x ∈ lats -> fold_left Z.min lats a <= x.
Proof.
  induction lats as [|y lats IH]; intros a x Hx; cbn.
  - destruct Hx as [->|Hx]; [lia | now apply elem_of_nil in Hx].
  - destruct Hx as [->|Hx].
    + etransitivity; [apply (IH _ (Z.min a y)); now left | lia].
    + apply elem_of_cons in Hx as [->|Hx].
      * etransitivity; [apply (IH _ (Z.min a y)); now left | lia].
      * apply IH. now right.
Qed.

Lemma fold_max_ge lats : forall a x,
  x = a \/ x ∈ lats -> x <= fold_left Z.max lats a.
Proof.
  induction lats as [|y lats IH]; intros a x Hx; cbn.
  - destruct Hx as [->|Hx]; [lia | now apply elem_of_nil in Hx].
  - destruct Hx as [->|Hx].
    + etransitivity; [|apply (IH _ (Z.max a y)); now left]. lia.
    + apply elem_of_cons in Hx as [->|Hx].
      * etransitivity; [|apply (IH _ (Z.max a y)); now left]. lia.
      * apply IH. now right.
Qed.

Lemma fold_min_attained lats : forall a,
  fold_left Z.min lats a = a \/ fold_left Z.min lats a ∈ lats.
Proof.
  induction lats as [|y lats IH]; intros a; cbn; [now left|].
  destruct (IH (Z.min a y)) as [E|E].
  - rewrite E. destruct (Z.min_spec a y) as [[_ ->]|[_ ->]];
      [now left | right; apply elem_of_cons; now left].
  - right. apply elem_of_cons. now right.
Qed.

Lemma fold_max_attained lats : forall a,
  fold_left Z.max lats a = a \/ fold_left Z.max lats a ∈ lats.
Proof.
  induction lats as [|y lats IH]; intros a; cbn; [now left|].
  destruct (IH (Z.max a y)) as [E|E].
  - rewrite E. destruct (Z.max_spec a y) as [[_ ->]|[_ ->]];
      [right; apply elem_of_cons; now left | now left].
  - right. apply elem_of_cons. now right.
Qed.

(** X13. After recording the samples [lats] (fewer than 2^64 of them, each
    a [uint64_t]) into fresh statistics: [count] is their number, the sample
    vector holds them in order, [total_latency_ns] is their sum modulo 2^64,
    every sample lies between [min_latency_ns] and [max_latency_ns], and when
    there is a sample both bounds are samples. *)
Theorem record_summary (lats : list Z) :
  Z.of_nat (length lats) < 2 ^ 64 ->
  Forall (fun x => 0 <= x < 2 ^ 64) lats ->
  let s := record_all lats stats_new in
  count s = Z.of_nat (length lats) /\
  latencies s = lats /\
  total_latency_ns s = u64 (sum_of lats) /\
  (forall x, x ∈ lats -> min_latency_ns s <= x <= max_latency_ns s) /\
  (lats <> [] -> min_latency_ns s ∈ lats /\ max_latency_ns s ∈ lats).
Proof.
  intros Hlen Hrange s.
  destruct (record_all_fields lats stats_new) as (H1 & H2 & H3 & H4 & H5);
    [cbn; lia | cbn; lia |].
  fold s in H1, H2, H3, H4, H5. cbn [stats_new latencies count total_latency_ns
                                     min_latency_ns max_latency_ns] in *.
  rewrite Z.add_0_l in H2, H3. rewrite u64_small in H2 by lia.
  repeat split; try assumption.
  - rewrite H4. apply fold_min_le. now right.
  - rewrite H5. apply fold_max_ge. now right.
  - rewrite H4. destruct (fold_min_attained lats UINT64_MAX) as [E|E]; [|exact E].
    destruct lats as [|x lats]; [congruence|].
    assert (Hx : fold_left Z.min (x :: lats) UINT64_MAX <= x)
      by (apply fold_min_le; right; apply elem_of_cons; now left).
    inversion Hrange as [|? ? Hx0 _]; subst.
    assert (x = UINT64_MAX) by (unfold UINT64_MAX in *; lia).
    rewrite E. subst x. apply elem_of_cons. now left.
  - rewrite H5. destruct (fold_max_attained lats 0) as [E|E]; [|exact E].
    destruct lats as [|x lats]; [congruence|].
    assert (Hx : x <= fold_left Z.max (x :: lats) 0)
      by (apply fold_max_ge; right; apply elem_of_cons; now left).
    inversion Hrange as [|? ? Hx0 _]; subst.
    assert (x = 0) by lia.
    rewrite E. subst x. apply elem_of_cons. now left.
Qed.

Lemma record_summary_witness :
  let s := record_all [40; 20; 50] stats_new in
  count s = 3 /\
  latencies s = [40; 20; 50] /\
  total_latency_ns s = 110 /\
  (forall x, x ∈ [40; 20; 50] -> min_latency_ns s <= x <= max_latency_ns s) /\
  ([40; 20; 50] <> [] -> min_latency_ns s ∈ [40; 20; 50] /\ max_latency_ns s ∈ [40; 20; 50]).
Proof.
  apply (record_summary [40; 20; 50]).
  - cbn. lia.
  - repeat constructor; lia.
Defined.

Lemma sum_of_bounds lats lo hi :
  (forall x, x ∈ lats -> lo <= x <= hi) ->
  Z.of_nat (length lats) * lo <= sum_of lats <= Z.of_nat (length lats) * hi.
Proof.
  induction lats as [|x lats IH]; intros H; [cbn; lia|].
  cbn [length sum_of fold_right]. fold (sum_of lats).
  assert (lo <= x <= hi) by (apply H, elem_of_cons; now left).
  assert (forall y, y ∈ lats -> lo <= y <= hi)
    by (intros y Hy; apply H, elem_of_cons; now right).
  specialize (IH ltac:(assumption)). lia.
Qed.

(** X14. When at least one sample was recorded (fewer than 2^64 of them)
    and the sum of the samples fits in 64 bits, [avg_ns] lies between
    [min_latency_ns] and [max_latency_ns]. *)
Theorem avg_between_min_and_max (lats : list Z) :
  lats <> [] ->
  Z.of_nat (length lats) < 2 ^ 64 ->
  Forall (fun x => 0 <= x < 2 ^ 64) lats ->
  sum_of lats < 2 ^ 64 ->
  let s := record_all lats stats_new in
  min_latency_ns s <= avg_ns s <= max_latency_ns s.
Proof.
  intros Hne Hlen Hrange Hsum s.
  assert (Hnn : 0 <= sum_of lats).
  { clear -Hrange. induction Hrange as [|x l Hx _ IH]; cbn; [lia|].
    fold (sum_of l). lia. }
  destruct (record_all_fields lats stats_new) as (_ & Hc & Ht & Hmin & Hmax);
    [cbn; lia | cbn; lia |].
  fold s in Hc, Ht, Hmin, Hmax.
  cbn [stats_new count total_latency_ns min_latency_ns max_latency_ns] in *.
  rewrite Z.add_0_l in Hc, Ht. rewrite u64_small in Hc, Ht by lia.
  assert (Hb : forall x, x ∈ lats -> min_latency_ns s <= x <= max_latency_ns s).
  { intros x Hx. rewrite Hmin, Hmax. split.
    - apply fold_min_le. now right.
    - apply fold_max_ge. now right. }
  pose proof (sum_of_bounds lats _ _ Hb) as Hs.
  unfold avg_ns. rewrite Hc, Ht.
  assert (Hpos : 0 < Z.of_nat (length lats)) by (destruct lats; [congruence | cbn; lia]).
  destruct (Z.gtb_spec (Z.of_nat (length lats)) 0); [|lia].
  split.
  - apply Z.div_le_lower_bound; lia.
  - apply Z.div_le_upper_bound; lia.
Qed.

Lemma avg_between_min_and_max_witness :
  let s := record_all [40; 20; 50] stats_new in
  min_latency_ns s <= avg_ns s <= max_latency_ns s.
Proof.
  apply (avg_between_min_and_max [40; 20; 50]).
  - discriminate.
  - cbn. lia.
  - repeat constructor; lia.
  - cbn. lia.
Defined.

(** ** Latency statistics: percentiles *)

Lemma f64_to_u64_range x z : f64_to_u64 x = Some z -> 0 <= z < 2 ^ 64.
Proof.
  unfold f64_to_u64.
  destruct (Prim2SF x) as [s|s| |s m e]; try discriminate.
  - intros [= <-]. lia.
  - cbv zeta.
    assert (Hnn : 0 <= trunc_mag m e).
    { unfold trunc_mag. destruct (Z.leb_spec 0 e).
      - assert (0 < 2 ^ e) by (apply Z.pow_pos_nonneg; lia). nia.
      - apply Z.div_pos; [lia|]. apply Z.pow_pos_nonneg; lia. }
    destruct s.
    + destruct (trunc_mag m e =? 0); [|discriminate]. intros [= <-]. lia.
    + destruct (Z.ltb_spec (trunc_mag m e) (2 ^ 64)); [|discriminate].
      intros [= <-]. lia.
Qed.

(** X15. On non-empty statistics [percentile(p)] never reads outside the
    sample vector: whenever the conversion of the computed index to
    [size_t] is defined, the result is one of the recorded samples, and when
    that index is [n - 1] or more (it is clamped) the result is the greatest
    sample. *)
Theorem percentile_is_a_sample (p : float) (s : StrategyStats) :
  latencies s <> [] ->
  let n := Z.of_nat (length (latencies s)) in
  match f64_to_u64 ((p / 100) * u64_to_f64 (n - 1))%float with
  | None => percentile p s = None
  | Some idx =>
      exists v, percentile p s = Some v /\ v ∈ latencies s /\
                (n - 1 <= idx -> forall x, x ∈ latencies s -> x <= v)
  end.
Proof.
  intros Hne n. unfold percentile. subst n.
  destruct (latencies s) as [|x0 l0]; [congruence|]. clear Hne.
  set (lats := x0 :: l0). set (n := Z.of_nat (length lats)).
  set (sorted := merge_sort Z.le lats).
  assert (Hperm : sorted ≡ₚ lats) by apply merge_sort_Permutation.
  assert (Hlen : length sorted = length lats) by now rewrite Hperm.
  assert (Hpos : 0 < n) by (unfold n, lats; cbn; lia).
  rewrite Hlen. fold n.
  destruct (f64_to_u64 _) as [idx|] eqn:Hidx; [|reflexivity].
  apply f64_to_u64_range in Hidx. cbn.
  set (i := Z.to_nat (Z.min idx (n - 1))).
  assert (Hi : (i < length sorted)%nat) by (unfold i, n in *; lia).
  destruct (lookup_lt_is_Some_2 sorted i Hi) as [v Hv].
  exists v. split; [exact Hv|]. split.
  - rewrite <- Hperm. eapply list_elem_of_lookup_2; eauto.
  - intros Hclamp x Hx. rewrite <- Hperm in Hx.
    assert (Ei : i = (length sorted - 1)%nat) by (unfold i, n in *; lia).
    pose proof (StronglySorted_merge_sort Z.le lats) as Hs.
    fold sorted in Hs.
    rewrite <- (take_drop_middle sorted i v Hv) in Hx, Hs.
    rewrite (drop_ge sorted (S i)) in Hx, Hs by lia.
    apply elem_of_app in Hx as [Hx|Hx].
    + eapply (StronglySorted_app_1_elem_of Z.le); eauto.
      apply elem_of_cons. now left.
    + apply elem_of_cons in Hx as [->|Hx]; [lia|].
      now apply elem_of_nil in Hx.
Qed.

Lemma percentile_is_a_sample_witness :
  exists v, percentile 99 (record_all [40; 20; 50] stats_new) = Some v /\
            v ∈ [40; 20; 50] /\
            (3 - 1 <= 1 -> forall x, x ∈ [40; 20; 50] -> x <= v).
Proof.
  apply (percentile_is_a_sample 99 (record_all [40; 20; 50] stats_new)).
  cbn. discriminate.
Defined.

(** ** The consumer loop *)

Lemma run_strategy_rep Capacity (ns : list BookNotification) :
  0 < Capacity < 2 ^ 64 -> Z.land Capacity (Capacity - 1) = 0 ->
  forall fuel clock k q t stats,
  ring_rep Capacity q t ns ->
  (length ns < fuel)%nat ->
  run_strategy Capacity fuel clock k true q stats
  = Some (record_all (latencies_of clock k ns) stats).
Proof.
  intros Hr Hp.
  induction ns as [|n ns IH]; intros fuel clock k q t stats Hrep Hfuel.
  - destruct fuel as [|fuel]; [cbn in Hfuel; lia|].
    cbn [run_strategy].
    destruct (pop_empty_rep Capacity Hr Hp q t Hrep) as [Hc _].
    now rewrite Hc.
  - destruct fuel as [|fuel]; [cbn in Hfuel; lia|].
    cbn [run_strategy length] in *.
    destruct (dequeue_rep Capacity Hr Hp q t n ns Hrep) as [Hd Hpop].
    rewrite Hpop, Hd.
    destruct (try_pop_rep Capacity Hr Hp q t n ns Hrep) as [_ Hrep'].
    rewrite (IH fuel clock (S k) _ (t + 1) _ Hrep') by lia.
    reflexivity.
Qed.

Lemma run_notifications_length inputs : forall b,
  length (snd (run b inputs)) = length inputs.
Proof.
  induction inputs as [|[u ns] rest IH]; intros b; [reflexivity|].
  rewrite run_cons. cbn [snd length]. now rewrite IH.
Qed.

Lemma latencies_of_length clock ns : forall k,
  length (latencies_of clock k ns) = length ns.
Proof.
  induction ns as [|n ns IH]; intros k; [reflexivity|].
  cbn. now rewrite IH.
Qed.

Lemma latencies_of_run clock inputs : forall b k,
  latencies_of clock k (snd (run b inputs))
  = imap (fun i '(_, send_ns) => u64 (clock (k + i)%nat - send_ns)) inputs.
Proof.
  induction inputs as [|[u ns] rest IH]; intros b k; [reflexivity|].
  rewrite run_cons. cbn [snd latencies_of imap].
  rewrite IH. unfold apply at 1. cbn [snd engine_send_ns].
  rewrite Nat.add_0_r. f_equal.
  apply imap_ext. intros i [u' ns'] _. cbn. do 3 f_equal. lia.
Qed.

Lemma push_each_rep Capacity {T : Type} (ys : list T) :
  0 < Capacity < 2 ^ 64 -> Z.land Capacity (Capacity - 1) = 0 ->
  forall fuel q t xs,
  ring_rep Capacity q t xs ->
  Z.of_nat (length xs) + Z.of_nat (length ys) <= Capacity ->
  exists q', push_each Capacity (S fuel) ys q = Some q' /\
             ring_rep Capacity q' t (xs ++ ys).
Proof.
  intros Hr Hp fuel.
  induction ys as [|y ys IH]; intros q t xs Hrep Hroom.
  - exists q. rewrite app_nil_r. now split.
  - cbn [length] in Hroom. cbn [push_each].
    rewrite (push_rep Capacity Hr Hp fuel y q t xs Hrep) by lia.
    destruct (try_push_rep Capacity Hr Hp y q t xs Hrep) as [_ Hrep']; [lia|].
    destruct (IH _ t (xs ++ [y]) Hrep') as (q' & E & Hq').
    { rewrite length_app. cbn. lia. }
    exists q'. cbn. rewrite E. split; [reflexivity|].
    now rewrite <- app_assoc in Hq'.
Qed.

(** X16. The pipeline with the producer running first: the engine applies
    [K <= Capacity] updates and pushes each notification with the blocking
    [push], the close flag is set, and the strategy loop then runs. No push
    spins, and the loop ends having recorded exactly [K] latencies, the
    [i]-th being the [i]-th clock reading minus the [send_ns] of the [i]-th
    update, modulo 2^64. *)
Theorem pipeline_drains (Capacity : Z) (inputs : list (Update * Z))
    (clock : nat -> Z) :
  0 < Capacity < 2 ^ 64 ->
  Z.land Capacity (Capacity - 1) = 0 ->
  Z.of_nat (length inputs) <= Capacity ->
  let notifs := snd (run book_new inputs) in
  exists q stats,
    push_each Capacity 1 notifs (queue_new Capacity) = Some q /\
    run_strategy Capacity (S (length inputs)) clock 0 true q stats_new
    = Some stats /\
    count stats = Z.of_nat (length inputs) /\
    latencies stats
    = imap (fun i '(_, send_ns) => u64 (clock i - send_ns)) inputs.
Proof.
  intros Hr Hp Hlen notifs.
  assert (Hn : length notifs = length inputs) by apply run_notifications_length.
  destruct (push_each_rep Capacity notifs Hr Hp 0%nat (queue_new Capacity) 0 [])
    as (q & Hq & Hrep); [now apply queue_new_rep | cbn; lia |].
  cbn [app] in Hrep.
  exists q, (record_all (latencies_of clock 0 notifs) stats_new).
  split; [exact Hq|]. split.
  - apply (run_strategy_rep Capacity notifs Hr Hp _ _ _ _ 0); [exact Hrep | lia].
  - destruct (record_all_fields (latencies_of clock 0 notifs) stats_new)
      as (Hl & Hc & _); [cbn; lia | cbn; lia |].
    rewrite Hc, Hl, latencies_of_length, Hn. cbn [stats_new count latencies app].
    rewrite Z.add_0_l, u64_small by lia. split; [reflexivity|].
    unfold notifs. now rewrite latencies_of_run.
Qed.

Lemma pipeline_drains_witness :
  let notifs := snd (run book_new sample_inputs) in
  exists q stats,
    push_each 4 1 notifs (queue_new 4) = Some q /\
    run_strategy 4 (S (length sample_inputs)) (fun i => Z.of_nat i + 10) 0 true
                 q stats_new
    = Some stats /\
    count stats = Z.of_nat (length sample_inputs) /\
    latencies stats
    = imap (fun i '(_, send_ns) => u64 ((fun i => Z.of_nat i + 10) i - send_ns))
           sample_inputs.
Proof.
  apply (pipeline_drains 4 sample_inputs (fun i => Z.of_nat i + 10)).
  - lia.
  - reflexivity.
  - cbn. lia.
Defined.

(** ** The clock *)

(** X17. For a [timespec] with [0 <= tv_nsec < 10^9] and
    [0 <= tv_sec < 18446744073] (about 584 years) [now_ns] is
    [tv_sec * 10^9 + tv_nsec] without wrap-around, so a later [timespec]
    gives a larger value and the difference of two readings is the elapsed
    time in nanoseconds. *)
Theorem now_ns_exact (s1 n1 s2 n2 : Z) :
  0 <= s1 < 18446744073 -> 0 <= n1 < 1000000000 ->
  0 <= s2 < 18446744073 -> 0 <= n2 < 1000000000 ->
  now_ns s1 n1 = s1 * 1000000000 + n1 /\
  (s1 < s2 \/ (s1 = s2 /\ n1 <= n2) ->
     now_ns s1 n1 <= now_ns s2 n2 /\
     u64 (now_ns s2 n2 - now_ns s1 n1)
     = (s2 - s1) * 1000000000 + (n2 - n1)).
Proof.
  intros H1 H2 H3 H4.
  assert (E : forall s n, 0 <= s < 18446744073 -> 0 <= n < 1000000000 ->
                          now_ns s n = s * 1000000000 + n).
  { intros s n Hs Hn. unfold now_ns.
    rewrite (u64_small s), (u64_small n), (u64_small (s * 1000000000)) by lia.
    apply u64_small. lia. }
  rewrite !E by assumption. split; [reflexivity|].
  intros Hle. split; [nia|].
  rewrite u64_small by nia. lia.
Qed.

Lemma now_ns_exact_witness :
  now_ns 5 999999999 = 5 * 1000000000 + 999999999 /\
  (5 < 6 \/ (5 = 6 /\ 999999999 <= 0) ->
     now_ns 5 999999999 <= now_ns 6 0 /\
     u64 (now_ns 6 0 - now_ns 5 999999999)
     = (6 - 5) * 1000000000 + (0 - 999999999)).
Proof.
  apply (now_ns_exact 5 999999999 6 0); lia.
Defined.

(** ** The ingest adapter: numbers and fields *)

Lemma digit_char_value d :
  0 <= d <= 9 -> char_value (digit_char d) - char_value "0" = d.
Proof.
  intros H.
  assert (d = 0 \/ d = 1 \/ d = 2 \/ d = 3 \/ d = 4 \/ d = 5 \/ d = 6 \/ d = 7 \/
          d = 8 \/ d = 9) as Hd by lia.
  repeat (destruct Hd as [->|Hd]; [reflexivity|]). now subst.
Qed.

Lemma u64_mul_add a d : u64 (u64 a * 10 + d) = u64 (a * 10 + d).
Proof.
  unfold u64.
  rewrite Zplus_mod, Zmult_mod_idemp_l, <- Zplus_mod. reflexivity.
Qed.

Lemma parse_u64_digits ds : forall a,
  Forall (fun d => 0 <= d <= 9) ds ->
  fold_left (fun result c => u64 (result * 10 + (char_value c - char_value "0")))
            (digit_char <$> ds) (u64 a)
  = u64 (fold_left (fun a d => a * 10 + d) ds a).
Proof.
  induction ds as [|d ds IH]; intros a Hds; [reflexivity|].
  inversion Hds as [|? ? Hd Hds']; subst.
  cbn [fmap list_fmap fold_left]. rewrite digit_char_value by assumption.
  rewrite u64_mul_add. now apply IH.
Qed.

(** X18. [parse_u64] on a string of decimal digits returns the number they
    denote, reduced modulo 2^64 (there is no overflow check); on the empty
    string it returns 0. *)
Theorem parse_u64_decimal (ds : list Z) :
  Forall (fun d => 0 <= d <= 9) ds ->
  parse_u64 (digit_char <$> ds) = u64 (decimal_value ds) /\
  (decimal_value ds < 2 ^ 64 -> parse_u64 (digit_char <$> ds) = decimal_value ds) /\
  parse_u64 [] = 0.
Proof.
  intros Hds.
  assert (E : parse_u64 (digit_char <$> ds) = u64 (decimal_value ds)).
  { unfold parse_u64, decimal_value.
    change 0 with (u64 0) at 1. now apply parse_u64_digits. }
  split; [exact E|]. split; [|reflexivity].
  intros Hlt. rewrite E. apply u64_small. split; [|exact Hlt].
  unfold decimal_value. clear -Hds.
  assert (H : forall a, 0 <= a -> 0 <= fold_left (fun a d => a * 10 + d) ds a).
  { induction Hds as [|d ds Hd _ IH]; intros a Ha; [exact Ha|].
    cbn. apply IH. lia. }
  apply H. lia.
Qed.

Lemma parse_u64_decimal_witness :
  parse_u64 (list_ascii_of_string "1700000000123") = 1700000000123.
Proof.
  destruct (parse_u64_decimal [1; 7; 0; 0; 0; 0; 0; 0; 0; 0; 1; 2; 3]) as (_ & H & _).
  - repeat constructor; lia.
  - apply H. vm_compute. reflexivity.
Defined.

Lemma join_fields_cons f g rest :
  join_fields (f :: g :: rest) = f ++ ","%char :: join_fields (g :: rest).
Proof. reflexivity. Qed.

Lemma join_fields_snoc fs : forall f g,
  join_fields ((f :: fs) ++ [g]) = join_fields (f :: fs) ++ ","%char :: g.
Proof.
  induction fs as [|h fs IH]; intros f g; [reflexivity|].
  change ((f :: h :: fs) ++ [g]) with (f :: ((h :: fs) ++ [g])).
  cbn [app]. rewrite !join_fields_cons.
  change (h :: fs ++ [g]) with ((h :: fs) ++ [g]).
  rewrite IH, <- app_assoc. reflexivity.
Qed.

Lemma join_fields_snoc_ne fs g :
  fs <> [] -> join_fields (fs ++ [g]) = join_fields fs ++ ","%char :: g.
Proof.
  destruct fs as [|f fs]; [congruence|]. intros _. apply join_fields_snoc.
Qed.

Lemma snapshot_fields_join rest : forall in_quotes fs fields,
  join_fields (snapshot_fields rest in_quotes fs fields)
  = join_fields (fields ++ [fs]) ++ rest.
Proof.
  induction rest as [|c rest IH]; intros q fs fields; cbn [snapshot_fields].
  - now rewrite app_nil_r.
  - destruct (Ascii.eqb c "," && negb _) eqn:E.
    + rewrite IH. apply andb_true_iff in E as [Ec _].
      apply Ascii.eqb_eq in Ec. subst c.
      rewrite join_fields_snoc_ne by (now destruct fields).
      now rewrite <- app_assoc.
    + rewrite IH. destruct fields as [|f0 fields].
      * cbn. now rewrite <- app_assoc.
      * rewrite !join_fields_snoc_ne by discriminate.
        rewrite <- !app_assoc. cbn [app]. now rewrite <- app_assoc.
Qed.

Lemma snapshot_fields_count rest : forall in_quotes fs fields,
  (length fields < length (snapshot_fields rest in_quotes fs fields))%nat.
Proof.
  induction rest as [|c rest IH]; intros q fs fields; cbn [snapshot_fields].
  - rewrite length_app. cbn. lia.
  - destruct (Ascii.eqb c "," && negb _).
    + etransitivity; [|apply IH]. rewrite length_app. cbn. lia.
    + apply IH.
Qed.

(** X19. The quote-aware field splitting of a snapshot line loses nothing:
    it always yields at least one field, and joining the fields with commas
    gives back the line (a comma between double quotes stays inside its
    field). *)
Theorem snapshot_fields_roundtrip (line : list ascii) :
  join_fields (snapshot_fields line false [] []) = line /\
  (1 <= length (snapshot_fields line false [] []))%nat.
Proof.
  split.
  - now rewrite snapshot_fields_join.
  - pose proof (snapshot_fields_count line false [] []). cbn in *. lia.
Qed.

Lemma strip_quotes_quoted s :
  strip_quotes (DQUOTE :: s ++ [DQUOTE]) = s.
Proof.
  unfold strip_quotes. rewrite last_snoc. cbn.
  rewrite length_app. cbn. rewrite Nat.add_sub.
  now rewrite take_app_length.
Qed.

(** X20. [strip_quotes] removes exactly one pair of enclosing double quotes
    and leaves every text that is not enclosed in double quotes as it is
    (in particular the empty text and a lone quote). *)
Theorem strip_quotes_spec (sv : list ascii) :
  strip_quotes (DQUOTE :: sv ++ [DQUOTE]) = sv /\
  (head sv <> Some DQUOTE \/ last sv <> Some DQUOTE \/ (length sv < 2)%nat ->
   strip_quotes sv = sv).
Proof.
  split; [apply strip_quotes_quoted|].
  intros H. unfold strip_quotes.
  destruct sv as [|c rest]; [reflexivity|].
  destruct (last rest) as [d|] eqn:El; [|reflexivity].
  destruct (Ascii.eqb_spec c DQUOTE) as [->|Hc]; [|reflexivity].
  destruct (Ascii.eqb_spec d DQUOTE) as [->|Hd]; [|reflexivity].
  exfalso. destruct H as [H|[H|H]].
  - now apply H.
  - apply H. rewrite last_cons, El. reflexivity.
  - destruct rest; [discriminate El | cbn in H; lia].
Qed.

Lemma strip_quotes_spec_witness :
  strip_quotes (list_ascii_of_string "[[1, 2]]") = list_ascii_of_string "[[1, 2]]".
Proof.
  destruct (strip_quotes_spec (list_ascii_of_string "[[1, 2]]")) as [_ H].
  apply H. left. discriminate.
Defined.

(** ** The ingest adapter: lines *)

Section Parser_More.
Variable fp_contract : bool.
Variable strtod : list ascii -> float.
Variable indet_timestamp : Z.
Variable indet_side : Side.





(** With [INT_MAX] commas or more ahead, [++field] overflows. *)
Lemma incremental_fields_overflow rest : forall after k fs u,
  k <= INT_MAX ->
  INT_MAX <= k + Z.of_nat (commas rest) ->
  incremental_fields fp_contract strtod rest after k fs u = None.
Proof.
  induction rest as [|c rest IH]; intros after k fs u Hk Hn.
  - cbn [incremental_fields commas] in *.
    assert (E : next_field k = None).
    { unfold next_field. destruct (Z.ltb_spec k INT_MAX); [lia|reflexivity]. }
    rewrite E. now destruct (set_field _ _ _ _ _ _).
  - cbn [incremental_fields commas] in *. destruct (Ascii.eqb c ",").
    + destruct (set_field _ _ _ _ _ _) as [u'|]; [|reflexivity]. cbn.
      unfold next_field. destruct (Z.ltb_spec k INT_MAX); [|reflexivity].
      cbn. apply IH; lia.
    + apply IH; lia.
Qed.

(** A line with [INT_MAX] commas or more (2^31 fields) has no defined
    result. *)
Lemma parse_incremental_overflow line after out :
  INT_MAX <= Z.of_nat (commas line) ->
  parse_incremental fp_contract strtod indet_timestamp indet_side line after out = None.
Proof.
  intros H. unfold parse_incremental.
  rewrite incremental_fields_overflow; [reflexivity | unfold INT_MAX; lia | lia].
Qed.



(** *** Lines *)

Lemma skip_to_app_stop (stop : ascii -> bool) a c r :
  Forall (fun x => stop x = false) a -> stop c = true ->
  skip_to stop (a ++ c :: r) = c :: r /\ take_to stop (a ++ c :: r) = a.
Proof.
  intros Ha Hc. induction Ha as [|x a Hx _ IH]; cbn.
  - now rewrite Hc.
  - rewrite Hx. destruct IH as [-> ->]. now split.
Qed.

Lemma line_loop_line l : forall rest cur out,
  no_newline l ->
  line_loop fp_contract strtod indet_timestamp indet_side (l ++ LF :: rest) cur out
  = out' ← process_line fp_contract strtod indet_timestamp indet_side (cur ++ l) true out;
    line_loop fp_contract strtod indet_timestamp indet_side rest [] out'.
Proof.
  induction l as [|c l IH]; intros rest cur out Hl.
  - cbn [app line_loop]. rewrite app_nil_r.
    change (Ascii.eqb LF LF) with true. reflexivity.
  - inversion Hl as [|? ? Hc Hl']; subst.
    cbn [app line_loop]. rewrite Hc, IH by assumption.
    now rewrite <- app_assoc.
Qed.

Lemma line_loop_lines ls : forall out,
  Forall no_newline ls ->
  line_loop fp_contract strtod indet_timestamp indet_side (unlines ls) [] out
  = process_lines fp_contract strtod indet_timestamp indet_side ls out.
Proof.
  induction ls as [|l ls IH]; intros out Hls; [reflexivity|].
  inversion Hls as [|? ? Hl Hls']; subst.
  unfold unlines. cbn [fmap list_fmap concat]. rewrite <- app_assoc. cbn [app].
  rewrite line_loop_line by assumption. cbn [app process_lines].
  destruct (process_line _ _ _ _ l true out) as [out'|]; [|reflexivity].
  cbn. now apply IH.
Qed.

(** X22. [parse_file] never parses the first line, whatever it holds, and
    processes the following newline-terminated lines one by one, in order,
    each on the output of the previous ones. *)
Theorem parse_file_lines (header : list ascii) (ls : list (list ascii)) :
  no_newline header ->
  Forall no_newline ls ->
  parse_file fp_contract strtod indet_timestamp indet_side (header ++ LF :: unlines ls)
  = process_lines fp_contract strtod indet_timestamp indet_side ls [].
Proof.
  intros Hh Hls. unfold parse_file, skip_line.
  assert (Hh' : Forall (fun x => Ascii.eqb LF x = false) header).
  { eapply Forall_impl; [exact Hh|]. intros c Hc.
    apply Ascii.eqb_neq. apply Ascii.eqb_neq in Hc. congruence. }
  destruct (skip_to_app_stop (Ascii.eqb LF) header LF (unlines ls) Hh' eq_refl)
    as [-> _].
  cbn [tail]. now apply line_loop_lines.
Qed.

Lemma set_field_after_cr k fs u :
  set_field fp_contract strtod k fs (Some CR) u
  = set_field fp_contract strtod k fs (Some LF) u.
Proof.
  destruct k as [|p|p]; try reflexivity.
  do 3 (destruct p as [p|p|]; try reflexivity).
  cbn. now destruct fs.
Qed.

Lemma incremental_fields_after_cr rest : forall k fs u,
  incremental_fields fp_contract strtod rest (Some CR) k fs u
  = incremental_fields fp_contract strtod rest (Some LF) k fs u.
Proof.
  induction rest as [|c rest IH]; intros k fs u.
  - cbn [incremental_fields]. now rewrite set_field_after_cr.
  - cbn [incremental_fields]. destruct (Ascii.eqb c ","); [|apply IH].
    destruct (set_field _ _ _ _ _ _); [|reflexivity]. cbn.
    destruct (next_field k); [|reflexivity]. cbn. apply IH.
Qed.

(** X23. A carriage return before the newline is dropped: a line ended by
    CR LF is processed exactly as the same line ended by LF alone (only one
    carriage return is removed). *)
Theorem crlf_tolerated (l : list ascii) (out : list Update) :
  last l <> Some CR ->
  process_line fp_contract strtod indet_timestamp indet_side (l ++ [CR]) true out
  = process_line fp_contract strtod indet_timestamp indet_side l true out.
Proof.
  intros Hl. unfold process_line.
  rewrite last_snoc. change (Ascii.eqb CR CR) with true.
  rewrite length_app. cbn [length]. rewrite Nat.add_sub, take_app_length.
  assert (E : (match last l with
               | Some c => if Ascii.eqb c CR
                           then (take (length l - 1) l, Some CR)
                           else (l, Some LF)
               | None => (l, Some LF)
               end) = (l, Some LF)).
  { destruct (last l) as [c|]; [|reflexivity].
    destruct (Ascii.eqb_spec c CR) as [->|]; [congruence|reflexivity]. }
  rewrite E. destruct l as [|c l]; [reflexivity|].
  unfold parse_line.
  destruct (Ascii.eqb c "s"); [reflexivity|].
  destruct (Ascii.eqb c "i"); [|reflexivity].
  unfold parse_incremental. now rewrite incremental_fields_after_cr.
Qed.

End Parser_More.


(** ** The ingest adapter: the level arrays of a snapshot *)

Section Levels.
Variable fp_contract : bool.
Variable strtod : list ascii -> float.

Lemma skip_to_none (stop : ascii -> bool) s :
  Forall (fun x => stop x = false) s -> skip_to stop s = [].
Proof.
  induction 1 as [|x s Hx _ IH]; cbn; [reflexivity|]. now rewrite Hx.
Qed.







End Levels.


Lemma parse_file_lines_witness :
  parse_file false sample_strtod 0 Bid
    (header_line ++ LF :: unlines [list_ascii_of_string "i,x"; list_ascii_of_string "trade"])
  = process_lines false sample_strtod 0 Bid
      [list_ascii_of_string "i,x"; list_ascii_of_string "trade"] [].
Proof.
  apply (parse_file_lines false sample_strtod 0 Bid header_line).
  - repeat constructor.
  - repeat constructor.
Defined.

Lemma crlf_tolerated_witness :
  process_line false sample_strtod 0 Bid (list_ascii_of_string "i,x" ++ [CR]) true []
  = process_line false sample_strtod 0 Bid (list_ascii_of_string "i,x") true [].
Proof.
  apply (crlf_tolerated false sample_strtod 0 Bid (list_ascii_of_string "i,x") []).
  discriminate.
Defined.

(** ** The ingest adapter: how many updates *)

Section Parser_Count.
Variable fp_contract : bool.
Variable strtod : list ascii -> float.
Variable indet_timestamp : Z.
Variable indet_side : Side.

Lemma process_line_grows l nl out r :
  process_line fp_contract strtod indet_timestamp indet_side l nl out = Some r ->
  r = out \/ exists u, r = out ++ [u].
Proof.
  unfold process_line.
  match goal with
  | |- context [let '(_, _) := ?p in _] => destruct p as [content after]
  end.
  destruct content as [|c content].
  { intros H. inversion H. now left. }
  unfold parse_line.
  destruct (Ascii.eqb c "s").
  - unfold parse_snapshot. destruct (_ <? 7)%nat.
    { intros H. inversion H. now left. }
    destruct (parse_levels_json fp_contract strtod (strip_quotes (_ !!! 5%nat))) as [bs|];
      [|cbn; discriminate].
    destruct (parse_levels_json fp_contract strtod (strip_quotes (_ !!! 6%nat))) as [as_|];
      [|cbn; discriminate].
    cbn. intros H. inversion H. right. eauto.
  - destruct (Ascii.eqb c "i").
    + intros H. right. eapply parse_incremental_appends; eauto.
    + intros H. inversion H. now left.
Qed.

(** X25. Ingestion only appends: whenever processing a sequence of lines
    returns, its result is the earlier output followed by at most one new
    update per line. *)
Theorem updates_bounded_by_lines (ls : list (list ascii)) (out r : list Update) :
  process_lines fp_contract strtod indet_timestamp indet_side ls out = Some r ->
  exists new, r = out ++ new /\ (length new <= length ls)%nat.
Proof.
  revert out. induction ls as [|l ls IH]; intros out H.
  - injection H as <-. exists []. now rewrite app_nil_r.
  - cbn [process_lines] in H.
    destruct (process_line _ _ _ _ l true out) as [out'|] eqn:E; [|discriminate].
    cbn in H. destruct (IH out' H) as (new & -> & Hlen).
    destruct (process_line_grows l true out out' E) as [->|[u ->]].
    + exists new. split; [reflexivity | cbn; lia].
    + exists (u :: new). rewrite <- app_assoc. split; [reflexivity | cbn; lia].
Qed.

End Parser_Count.

Lemma updates_bounded_by_lines_witness :
  exists new,
    [mkUpdate Incremental 0 Bid (mkLevel (mkPrice 0) (mkQty 0)) [] []] = [] ++ new /\
    (length new <= 2)%nat.
Proof.
  apply (updates_bounded_by_lines false sample_strtod 0 Bid
           [list_ascii_of_string "i,x"; list_ascii_of_string "trade"] []).
  reflexivity.
Defined.

(** ** The observers of the book *)

(** X26. On every book reached from the empty one, [best_bid()] is empty
    exactly when [bid_depth()] is 0, and [best_ask()] exactly when
    [ask_depth()] is 0. *)
Theorem best_empty_iff_depth_zero (inputs : list (Update * Z)) :
  let b := fst (run book_new inputs) in
  (book_best_bid b = None <-> bid_depth b = 0%nat) /\
  (book_best_ask b = None <-> ask_depth b = 0%nat).
Proof.
  intros b.
  destruct (run_consistent inputs book_new book_new_consistent) as [Hb Ha].
  fold b in Hb, Ha.
  unfold book_best_bid, book_best_ask, bid_depth, ask_depth,
    bid_cache_ok, ask_cache_ok in *.
  rewrite !map_size_empty_iff. split; split.
  - intros E. now rewrite E in Hb.
  - intros E. destruct (cached_best_bid_ b) as [l|]; [|reflexivity].
    cbn in Hb. destruct Hb as [Hk _]. rewrite E, lookup_empty in Hk. discriminate.
  - intros E. now rewrite E in Ha.
  - intros E. destruct (cached_best_ask_ b) as [l|]; [|reflexivity].
    cbn in Ha. destruct Ha as [Hk _]. rewrite E, lookup_empty in Hk. discriminate.
Qed.

(** ** What the [static_assert] admits *)

(** X27. For a positive [Capacity] the asserted condition
    [(Capacity & MASK) == 0] holds exactly for the powers of two, 2^0 = 1
    included. *)
Theorem static_assert_admits (Capacity : Z) :
  0 < Capacity < 2 ^ 64 ->
  (Z.land Capacity (MASK Capacity) = 0 <-> exists k, 0 <= k < 64 /\ Capacity = 2 ^ k).
Proof.
  intros Hr. unfold MASK. split.
  - intros Hp. exists (Z.log2 Capacity). split.
    + split; [apply Z.log2_nonneg|]. apply Z.log2_lt_pow2; lia.
    + now apply Capacity_is_pow2.
  - intros (k & Hk & ->).
    replace (2 ^ k - 1) with (Z.ones k) by (rewrite Z.ones_equiv; lia).
    rewrite Z.land_ones by lia. apply Z.mod_same.
    assert (0 < 2 ^ k) by (apply Z.pow_pos_nonneg; lia). lia.
Qed.

Lemma static_assert_admits_witness :
  Z.land 4096 (MASK 4096) = 0 <-> exists k, 0 <= k < 64 /\ 4096 = 2 ^ k.
Proof.
  apply (static_assert_admits 4096). lia.
Defined.
